(** * Email contacts extractor: the mail aggregator and the LinkedIn parser

    A shallow embedding of [extract_contacts.py] (class [ContactExtractor])
    and of [linkedin_contacts.py] ([parse_linkedin_export]), with the
    properties of the written specification stated over it.

    Conventions of the embedding.
    - A Python [str] is a [string]; one [ascii] stands for one code point
      below 256, and [str.lower], [str.isspace] are given on those.
    - A Python [int] is a [Z].
    - [self.contacts] is a dict whose iteration order is its insertion
      order: an association list with in-place update and append.
    - A [set] of strings is a [gset string].
    - Library functions whose behaviour is not part of this repository
      ([email.utils.parseaddr], [email.header.decode_header],
      [bytes.decode], [datetime.strptime], [datetime.isoformat]) are
      variables of the sections that use them.
    - An exception that the code lets escape is a constructor of the
      result type. *)

From Stdlib Require Import ZArith Lia Bool Ascii String List Sorted Permutation.
From stdpp Require Import base strings list gmap.

Local Open Scope string_scope.
Local Open Scope Z_scope.

(** ** Strings *)

Module Str.

Definition code (c : ascii) : N := N_of_ascii c.

Definition between (lo hi n : N) : bool := ((lo <=? n) && (n <=? hi))%N.

(** [str.isspace] on one code point below 256. *)
Definition isspace (c : ascii) : bool :=
  let n := code c in
  between 9 13 n || between 28 32 n || (n =? 133)%N || (n =? 160)%N.

(** [str.lower] on one code point below 256: A-Z, and the Latin-1
    capitals U+00C0..U+00DE other than the multiplication sign. *)
Definition lower_char (c : ascii) : ascii :=
  let n := code c in
  if between 65 90 n || (between 192 222 n && negb (n =? 215)%N)
  then ascii_of_N (n + 32) else c.

Fixpoint lower (s : string) : string :=
  match s with
  | EmptyString => EmptyString
  | String c r => String (lower_char c) (lower r)
  end.

(** Truth value of a string: [if s] in Python. *)
Definition truthy (s : string) : bool :=
  match s with EmptyString => false | String _ _ => true end.

(** [c in s] for a one-character [c]. *)
Fixpoint mem (c : ascii) (s : string) : bool :=
  match s with
  | EmptyString => false
  | String x r => Ascii.eqb x c || mem c r
  end.

Fixpoint lstrip (p : ascii -> bool) (s : string) : string :=
  match s with
  | EmptyString => EmptyString
  | String c r => if p c then lstrip p r else s
  end.

Fixpoint rstrip (p : ascii -> bool) (s : string) : string :=
  match s with
  | EmptyString => EmptyString
  | String c r =>
      let r' := rstrip p r in
      if p c && negb (truthy r') then EmptyString else String c r'
  end.

(** [s.strip()] and [s.strip(chars)]: [p] tells the characters removed. *)
Definition strip_by (p : ascii -> bool) (s : string) : string :=
  rstrip p (lstrip p s).

Definition strip (s : string) : string := strip_by isspace s.

Definition strip_char (c : ascii) (s : string) : string :=
  strip_by (Ascii.eqb c) s.

(** [s.replace(c, '')] for a one-character [c]. *)
Fixpoint remove (c : ascii) (s : string) : string :=
  match s with
  | EmptyString => EmptyString
  | String x r => if Ascii.eqb x c then remove c r else String x (remove c r)
  end.

(** [s[:n]]. *)
Fixpoint take (n : nat) (s : string) : string :=
  match n, s with
  | O, _ => EmptyString
  | S _, EmptyString => EmptyString
  | S n', String c r => String c (take n' r)
  end.

(** [s.split(c)[-1]]: what follows the last [c], all of [s] without one. *)
Fixpoint after_last (c : ascii) (s : string) : string :=
  match s with
  | EmptyString => EmptyString
  | String x r =>
      if mem c r then after_last c r
      else if Ascii.eqb x c then r else s
  end.

Fixpoint startswith (p s : string) : bool :=
  match p, s with
  | EmptyString, _ => true
  | String _ _, EmptyString => false
  | String a p', String b s' => Ascii.eqb a b && startswith p' s'
  end.

(** [p in s] for strings. *)
Fixpoint contains (p s : string) : bool :=
  startswith p s ||
  match s with
  | EmptyString => false
  | String _ r => contains p r
  end.

Fixpoint all (p : ascii -> bool) (s : string) : bool :=
  match s with
  | EmptyString => true
  | String c r => p c && all p r
  end.

(** The double quote, which a string literal cannot hold. *)
Definition dquote : ascii := ascii_of_N 34.
Definition squote : ascii := ascii_of_N 39.
Definition q (s : string) : string := String dquote (s ++ String dquote EmptyString).

End Str.

(** ** Dates *)

(** A [datetime]: the wall-clock reading in microseconds and, for an aware
    value, its UTC offset in microseconds. *)
Record datetime := mk_datetime { wall : Z; utcoffset : option Z }.

(** [a < b] on datetimes; [None] is the [TypeError] Python raises when one
    side is naive and the other aware. *)
Definition dt_lt (a b : datetime) : option bool :=
  match utcoffset a, utcoffset b with
  | None, None => Some (wall a <? wall b)
  | Some oa, Some ob => Some (wall a - oa <? wall b - ob)
  | _, _ => None
  end.

Definition dt_gt (a b : datetime) : option bool := dt_lt b a.

(** [a <= b], with the same [TypeError]. *)
Definition dt_le (a b : datetime) : option bool := negb <$> dt_lt b a.

(** ** The mail pipeline *)

Module Mail.

(** One value of [self.contacts]. *)
Record contact := mk_contact {
  name : string;
  email : string;
  sent_count : Z;
  received_count : Z;
  first_seen : option datetime;
  last_seen : option datetime;
  domains : gset string
}.

(** The [defaultdict] factory of [__init__]. *)
Definition default_contact : contact :=
  {| name := ""; email := ""; sent_count := 0; received_count := 0;
     first_seen := None; last_seen := None; domains := ∅ |}.

Definition contacts := list (string * contact).

Fixpoint lookup (k : string) (d : contacts) : option contact :=
  match d with
  | [] => None
  | (k', c) :: r => if String.eqb k k' then Some c else lookup k r
  end.

(** [d[k] = c]: an existing key keeps its place, a new one goes last. *)
Fixpoint store (k : string) (c : contact) (d : contacts) : contacts :=
  match d with
  | [] => [(k, c)]
  | (k', c') :: r =>
      if String.eqb k k' then (k', c) :: r else (k', c') :: store k c r
  end.

(** [self.contacts[k]] of the [defaultdict]: the stored record, or the
    default one, which the access also inserts. *)
Definition getitem (k : string) (d : contacts) : contact :=
  match lookup k d with Some c => c | None => default_contact end.

Definition keys (d : contacts) : list string := map fst d.

(** What a call leaves behind: the dict, and whether it returned or
    raised. The dict is mutated in place, so a raise keeps the writes
    made before it. *)
Inductive outcome :=
| Done (d : contacts)
| Raised (d : contacts).

Definition state_of (o : outcome) : contacts :=
  match o with Done d | Raised d => d end.

Definition bind (o : outcome) (k : contacts -> outcome) : outcome :=
  match o with Done d => k d | Raised d => Raised d end.

Definition set_email (e : string) (c : contact) : contact :=
  {| name := name c; email := e; sent_count := sent_count c;
     received_count := received_count c; first_seen := first_seen c;
     last_seen := last_seen c; domains := domains c |}.

Definition set_name (n : string) (c : contact) : contact :=
  {| name := n; email := email c; sent_count := sent_count c;
     received_count := received_count c; first_seen := first_seen c;
     last_seen := last_seen c; domains := domains c |}.

Definition incr_sent (c : contact) : contact :=
  {| name := name c; email := email c; sent_count := sent_count c + 1;
     received_count := received_count c; first_seen := first_seen c;
     last_seen := last_seen c; domains := domains c |}.

Definition incr_received (c : contact) : contact :=
  {| name := name c; email := email c; sent_count := sent_count c;
     received_count := received_count c + 1; first_seen := first_seen c;
     last_seen := last_seen c; domains := domains c |}.

Definition set_first_seen (d : datetime) (c : contact) : contact :=
  {| name := name c; email := email c; sent_count := sent_count c;
     received_count := received_count c; first_seen := Some d;
     last_seen := last_seen c; domains := domains c |}.

Definition set_last_seen (d : datetime) (c : contact) : contact :=
  {| name := name c; email := email c; sent_count := sent_count c;
     received_count := received_count c; first_seen := first_seen c;
     last_seen := Some d; domains := domains c |}.

Definition add_domain (dom : string) (c : contact) : contact :=
  {| name := name c; email := email c; sent_count := sent_count c;
     received_count := received_count c; first_seen := first_seen c;
     last_seen := last_seen c; domains := {[ dom ]} ∪ domains c |}.

(** Lines 139-141: keep the best name. *)
Definition better_name (nm stored : string) : bool :=
  Str.truthy nm &&
  (negb (Str.truthy stored) || (String.length stored <? String.length nm)%nat).

Definition update_name (nm : string) (c : contact) : contact :=
  if better_name nm (name c) then set_name nm c else c.

(** Lines 144-147. *)
Definition update_counts (is_sent : bool) (c : contact) : contact :=
  if is_sent then incr_sent c else incr_received c.

(** Lines 150-154. The second component is [true] when a comparison
    raised; the record then holds the writes made before it. *)
Definition update_dates (date : option datetime) (c : contact) : contact * bool :=
  match date with
  | None => (c, false)
  | Some d =>
      let step1 :=
        match first_seen c with
        | None => Some (set_first_seen d c)
        | Some f =>
            match dt_lt d f with
            | None => None
            | Some true => Some (set_first_seen d c)
            | Some false => Some c
            end
        end in
      match step1 with
      | None => (c, true)
      | Some c1 =>
          match last_seen c1 with
          | None => (set_last_seen d c1, false)
          | Some l =>
              match dt_gt d l with
              | None => (c1, true)
              | Some true => (set_last_seen d c1, false)
              | Some false => (c1, false)
              end
          end
      end
  end.

Section Aggregator.

(** [self.email_address], the mailbox owner. *)
Variable owner : string.

(** [ContactExtractor._update_contact]. *)
Definition _update_contact (nm email_addr : string) (date : option datetime)
    (is_sent : bool) (d : contacts) : outcome :=
  let email_lower := Str.lower email_addr in
  if String.eqb email_lower (Str.lower owner) then Done d
  else
    let contact0 := getitem email_lower d in
    let contact1 := set_email email_lower contact0 in
    let contact2 := update_name nm contact1 in
    let contact3 := update_counts is_sent contact2 in
    let '(contact4, raised) := update_dates date contact3 in
    if raised then Raised (store email_lower contact4 d)
    else
      let domain := Str.after_last "@" email_lower in
      Done (store email_lower (add_domain domain contact4) d).

(** One call of [_update_contact], as the scan makes it. *)
Record observation := mk_observation {
  obs_name : string;
  obs_email : string;
  obs_date : option datetime;
  obs_is_sent : bool
}.

(** A stream of calls on the same dict. The caller catches what a
    call raises and goes on with the dict as the call left it. *)
Definition feed (obs : list observation) (d : contacts) : contacts :=
  fold_left
    (fun d o =>
       state_of (_update_contact (obs_name o) (obs_email o) (obs_date o)
                                 (obs_is_sent o) d))
    obs d.

End Aggregator.

(** What the dict says about a key; a key without an entry has the
    values of the default record. *)
Definition name_of (k : string) (d : contacts) : string := name (getitem k d).
Definition received_of (k : string) (d : contacts) : Z :=
  received_count (getitem k d).
Definition first_seen_of (k : string) (d : contacts) : option datetime :=
  first_seen (getitem k d).
Definition last_seen_of (k : string) (d : contacts) : option datetime :=
  last_seen (getitem k d).

(** The record a call of [_update_contact] leaves under its key [k],
    from the record [c0] it found there, and whether the call raised. *)
Definition updated (nm k : string) (date : option datetime) (is_sent : bool)
    (c0 : contact) : contact * bool :=
  let c3 := update_counts is_sent (update_name nm (set_email k c0)) in
  let '(c4, raised) := update_dates date c3 in
  if raised then (c4, true)
  else (add_domain (Str.after_last "@" k) c4, false).


(** The dates of a well-formed entry: none, or two that compare, the
    first one not after the last. *)
Definition dates_ok (c : contact) : Prop :=
  match first_seen c, last_seen c with
  | None, None => True
  | Some f, Some l => dt_le f l = Some true
  | _, _ => False
  end.

Definition entry_ok (item : string * contact) : Prop :=
  let '(k, c) := item in
  email c = k /\ Str.lower k = k /\
  1 <= sent_count c + received_count c /\
  domains c <> ∅ /\
  dates_ok c.

(** *** Header decoding and address parsing *)

(** One item of the list [decode_header] returns: a text, or bytes with
    the character set they declare. *)
Inductive header_part :=
| PartStr (s : string)
| PartBytes (b : list Byte.byte) (encoding : option string).

(** [' '.join(l)]. *)
Fixpoint join_space (l : list string) : string :=
  match l with
  | [] => ""
  | [s] => s
  | s :: r => s ++ " " ++ join_space r
  end.

(** The lookahead [(?=(?:[^Q]*Q[^Q]*Q)*[^Q]*$)], where Q stands for the
    double quote: the rest of the string is made of pairs of double
    quotes and text without one. [inq] is [true] between the two quotes
    of a pair. *)
Fixpoint lookahead_from (inq : bool) (rest : string) : bool :=
  match rest with
  | EmptyString => negb inq
  | String c r =>
      if Ascii.eqb c Str.dquote then lookahead_from (negb inq) r
      else lookahead_from inq r
  end.

Definition lookahead (rest : string) : bool := lookahead_from false rest.

(** [','.join(l)]. *)
Fixpoint join_comma (l : list string) : string :=
  match l with
  | [] => ""
  | [s] => s
  | s :: r => s ++ "," ++ join_comma r
  end.

(** [re.split(pattern, s)] for the pattern made of a comma and the
    lookahead above: a cut at every comma the lookahead accepts. *)
Fixpoint re_split (s : string) : list string :=
  match s with
  | EmptyString => [""]
  | String c r =>
      if Ascii.eqb c "," && lookahead r then "" :: re_split r
      else
        match re_split r with
        | p :: ps => String c p :: ps
        | [] => [String c ""]
        end
  end.

(** The positions, in [s], of the commas [re_split] cuts at; [pos] is the
    position of the first character of [s]. *)
Fixpoint cuts (pos : nat) (s : string) : list nat :=
  match s with
  | EmptyString => []
  | String c r =>
      if Ascii.eqb c "," && lookahead r then pos :: cuts (S pos) r
      else cuts (S pos) r
  end.

(** Whether [t] matches [\s*\([^)]+\)\s*$] from its first character. *)
Definition tz_comment (t : string) : bool :=
  match Str.lstrip Str.isspace t with
  | String "(" body =>
      let rest := Str.lstrip (fun c => negb (Ascii.eqb c ")")) body in
      negb (Str.startswith ")" body) &&
      match rest with
      | String ")" tl => Str.all Str.isspace tl
      | _ => false
      end
  | _ => false
  end.

(** [re.sub(r'\s*\([^)]+\)\s*$', '', s)]: the leftmost match runs to
    the end of the string and is cut off. *)
Fixpoint re_sub_tz (s : string) : string :=
  if tz_comment s then ""
  else
    match s with
    | EmptyString => ""
    | String c r => String c (re_sub_tz r)
    end.

Definition date_formats : list string :=
  [ "%a, %d %b %Y %H:%M:%S %z";
    "%d %b %Y %H:%M:%S %z";
    "%a, %d %b %Y %H:%M:%S";
    "%d %b %Y %H:%M:%S" ].

Section Parsing.

(** [email.header.decode_header]. *)
Variable decode_header : string -> list header_part.
(** [b.decode(enc, errors='replace')]; [None] when it raises (an
    unknown character set). *)
Variable bytes_decode : list Byte.byte -> string -> option string.
(** [b.decode('utf-8', errors='replace')] in the handler, which
    cannot fail. *)
Variable decode_utf8 : list Byte.byte -> string.
(** [email.utils.parseaddr]: the pair (name, address). *)
Variable parseaddr : string -> string * string.
(** [datetime.strptime(s, fmt)]; [None] is its [ValueError]. *)
Variable strptime : string -> string -> option datetime.

Definition decode_part (p : header_part) : string :=
  match p with
  | PartStr s => s
  | PartBytes b encoding =>
      let enc :=
        match encoding with
        | Some e => if Str.truthy e then e else "utf-8"
        | None => "utf-8"
        end in
      match bytes_decode b enc with
      | Some s => s
      | None => decode_utf8 b
      end
  end.

(** [ContactExtractor._decode_header_value]. *)
Definition _decode_header_value (value : string) : string :=
  if negb (Str.truthy value) then ""
  else join_space (map decode_part (decode_header value)).

(** The body of the loop of [_parse_email_addresses]: the pair a
    segment adds, if any. *)
Definition parse_part (part : string) : option (string * string) :=
  let '(nm, addr) := parseaddr (Str.strip part) in
  if Str.truthy addr && Str.mem "@" addr then
    let addr' := Str.strip (Str.lower addr) in
    let nm' := Str.strip_char Str.squote
                 (Str.strip_char Str.dquote (Str.strip nm)) in
    Some (nm', addr')
  else None.

(** [ContactExtractor._parse_email_addresses]. *)
Definition _parse_email_addresses (header_value : string)
    : list (string * string) :=
  if negb (Str.truthy header_value) then []
  else
    let decoded := _decode_header_value header_value in
    let parts := re_split decoded in
    omap parse_part parts.

Fixpoint try_formats (s : string) (fmts : list string) : option datetime :=
  match fmts with
  | [] => None
  | fmt :: r =>
      match strptime s fmt with
      | Some d => Some d
      | None => try_formats s r
      end
  end.

(** [ContactExtractor._parse_date]. *)
Definition _parse_date (date_str : string) : option datetime :=
  if negb (Str.truthy date_str) then None
  else
    let date_str' := re_sub_tz date_str in
    try_formats (Str.strip date_str') date_formats.

End Parsing.

(** *** Folder scan *)

(** The four headers the scan fetches, each as [msg.get(h, '')]. *)
Record message := mk_message {
  get_Date : string;
  get_From : string;
  get_To : string;
  get_Cc : string
}.

(** What [self.mail.fetch] and [email.message_from_bytes] give for one
    message identifier. *)
Inductive fetched :=
| FetchNotOK
| FetchRaised
| Fetched (msg : message).

(** What the mail session answers for one folder. *)
Record folder_view := mk_folder_view {
  select_ok : bool;
  search_ok : bool;
  message_ids : list fetched
}.

(** [ids[-limit:]], after [if limit]. *)
Definition most_recent {A} (limit : option Z) (ids : list A) : list A :=
  match limit with
  | None => ids
  | Some n =>
      if n =? 0 then ids
      else if 0 <? n then drop (length ids - Z.to_nat n)%nat ids
      else drop (Z.to_nat (- n)) ids
  end.

Section Scan.

Variable owner : string.
Variable decode_header : string -> list header_part.
Variable bytes_decode : list Byte.byte -> string -> option string.
Variable decode_utf8 : list Byte.byte -> string.
Variable parseaddr : string -> string * string.
Variable strptime : string -> string -> option datetime.

Let addresses := _parse_email_addresses decode_header bytes_decode decode_utf8 parseaddr.

(** [for name, addr in pairs: self._update_contact(name, addr, date, is_sent)]. *)
Fixpoint update_all (date : option datetime) (is_sent : bool)
    (pairs : list (string * string)) (d : contacts) : outcome :=
  match pairs with
  | [] => Done d
  | (nm, addr) :: r =>
      bind (_update_contact owner nm addr date is_sent d)
           (update_all date is_sent r)
  end.

(** [for header in ['To', 'Cc']: ...]. *)
Fixpoint update_headers (date : option datetime) (msg : message)
    (headers : list (message -> string)) (d : contacts) : outcome :=
  match headers with
  | [] => Done d
  | h :: r =>
      bind (update_all date true (addresses (h msg)) d)
           (update_headers date msg r)
  end.

(** The body of the [try] of [scan_folder], lines 233-242, for a
    fetched message. [is_sent] is the flag of line 217. *)
Definition process_message (is_sent : bool) (msg : message) (d : contacts)
    : outcome :=
  let date := _parse_date strptime (get_Date msg) in
  bind (update_all date false (addresses (get_From msg)) d)
       (update_headers date msg [get_To; get_Cc]).

(** The loop of [scan_folder] over the message identifiers: the dict
    and the number of messages scanned. A raise skips the rest of the
    message and is not counted. *)
Fixpoint scan_messages (is_sent : bool) (ids : list fetched)
    (d : contacts) (scanned : Z) : contacts * Z :=
  match ids with
  | [] => (d, scanned)
  | FetchNotOK :: r => scan_messages is_sent r d scanned
  | FetchRaised :: r => scan_messages is_sent r d scanned
  | Fetched msg :: r =>
      match process_message is_sent msg d with
      | Done d' => scan_messages is_sent r d' (scanned + 1)
      | Raised d' => scan_messages is_sent r d' scanned
      end
  end.

(** [ContactExtractor.scan_folder]. *)
Definition scan_folder (folder : string) (limit : option Z)
    (view : folder_view) (d : contacts) : contacts * Z :=
  if negb (select_ok view) then (d, 0)
  else if negb (search_ok view) then (d, 0)
  else
    let ids := most_recent limit (message_ids view) in
    let is_sent := Str.contains "sent" (Str.lower folder) in
    scan_messages is_sent ids d 0.

End Scan.

(** *** Ranking *)

(** One dict of the list [get_contacts] returns. *)
Module Out.
Record row := mk_row {
  name : string;
  email : string;
  sent_count : Z;
  received_count : Z;
  total_interactions : Z;
  first_seen : string;
  last_seen : string;
  domain : string
}.
End Out.

(** [results.sort(key=lambda x: x['total_interactions'], reverse=True)]:
    a stable sort, largest key first; equal keys keep their order. *)
Fixpoint insert_desc (x : Out.row) (l : list Out.row) : list Out.row :=
  match l with
  | [] => [x]
  | y :: r =>
      if Out.total_interactions x <? Out.total_interactions y
      then y :: insert_desc x r
      else x :: l
  end.

Fixpoint sort_desc (l : list Out.row) : list Out.row :=
  match l with
  | [] => []
  | x :: r => insert_desc x (sort_desc r)
  end.

Definition by_total (a b : Out.row) : Prop :=
  Out.total_interactions b <= Out.total_interactions a.

Definition has_total (t : Z) (r : Out.row) : bool :=
  Out.total_interactions r =? t.

Section Ranking.

(** [datetime.isoformat]. *)
Variable isoformat : datetime -> string.

Definition iso_or_empty (o : option datetime) : string :=
  match o with Some d => isoformat d | None => "" end.

(** [list(s)[0] if s else '']. *)
Definition any_domain (s : gset string) : string :=
  match elements s with x :: _ => x | [] => "" end.

Definition total (data : contact) : Z := sent_count data + received_count data.

(** The dict appended for one item of [self.contacts]. *)
Definition result_of (item : string * contact) : Out.row :=
  let '(email_addr, data) := item in
  {| Out.name := name data;
     Out.email := email_addr;
     Out.sent_count := sent_count data;
     Out.received_count := received_count data;
     Out.total_interactions := total data;
     Out.first_seen := iso_or_empty (first_seen data);
     Out.last_seen := iso_or_empty (last_seen data);
     Out.domain := any_domain (domains data) |}.

(** The loop of [get_contacts], lines 284-297. *)
Fixpoint results (min_interactions : Z) (items : contacts) : list Out.row :=
  match items with
  | [] => []
  | item :: r =>
      if min_interactions <=? total (snd item)
      then result_of item :: results min_interactions r
      else results min_interactions r
  end.

(** [ContactExtractor.get_contacts]. *)
Definition get_contacts (min_interactions : Z) (d : contacts) : list Out.row :=
  sort_desc (results min_interactions d).

End Ranking.

End Mail.

(** ** The LinkedIn pipeline *)

Module LinkedIn.

(** One row of [csv.DictReader]: the cell under each column name. A
    cell is [None] where the line was shorter than the header (the
    reader's [restval]). *)
Definition row := gmap string (option string).

(** [row.get(key, default)]. *)
Definition get (r : row) (key : string) (default : option string) : option string :=
  match r !! key with
  | Some v => v
  | None => default
  end.

(** [v.strip()]; [None] is the [AttributeError] raised when [v] is
    [None]. *)
Definition strip (v : option string) : option string := Str.strip <$> v.

(** One dict of the list [parse_linkedin_export] returns. *)
Record contact := mk_contact {
  name : string;
  first_name : string;
  last_name : string;
  email : string;
  company : string;
  position : string;
  domain : string;
  connected_on : string;
  linkedin_url : string;
  source : string
}.

Inductive row_result :=
| AttributeError
| Skipped
| Appended (c : contact).

Definition connected_formats : list string :=
  [ "%d %b %Y"; "%b %d, %Y"; "%Y-%m-%d"; "%m/%d/%Y" ].

(** Lines 63-66. *)
Definition domain_of (company : string) : string :=
  if Str.truthy company
  then Str.take 20 (Str.remove "," (Str.remove " " (Str.lower company)))
  else "".

Section Parser.

Variable strptime : string -> string -> option datetime.
Variable isoformat : datetime -> string.

(** Lines 55-60: the first format that parses. *)
Fixpoint first_format (connected_on : string) (fmts : list string)
    : option datetime :=
  match fmts with
  | [] => None
  | fmt :: r =>
      match strptime connected_on fmt with
      | Some d => Some d
      | None => first_format connected_on r
      end
  end.

(** Lines 53-54. *)
Definition conn_date_of (connected_on : string) : option datetime :=
  if Str.truthy connected_on
  then first_format connected_on connected_formats
  else None.

(** Line 76. *)
Definition connected_on_of (connected_on : string) : string :=
  match conn_date_of connected_on with
  | Some d => isoformat d
  | None => connected_on
  end.

(** Lines 47-79, once the seven fields are resolved and trimmed. *)
Definition build (first_name last_name email company position
                  connected_on url : string) : row_result :=
  if negb (Str.truthy first_name) && negb (Str.truthy last_name)
  then Skipped
  else
    Appended
      {| name := Str.strip (first_name ++ " " ++ last_name);
         first_name := first_name;
         last_name := last_name;
         email := email;
         company := company;
         position := position;
         domain := domain_of company;
         connected_on := connected_on_of connected_on;
         linkedin_url := url;
         source := "linkedin" |}.

(** The body of the loop of [parse_linkedin_export], lines 39-79. *)
Definition process_row (r : row) : row_result :=
  match strip (get r "First Name" (get r "first_name" (Some ""))),
        strip (get r "Last Name" (get r "last_name" (Some ""))),
        strip (get r "Email Address" (get r "Email" (get r "email" (Some "")))),
        strip (get r "Company" (get r "company" (Some ""))),
        strip (get r "Position" (get r "position" (Some ""))),
        strip (get r "Connected On" (get r "connected_on" (Some ""))),
        strip (get r "URL" (get r "Profile URL" (get r "url" (Some ""))))
  with
  | Some first_name, Some last_name, Some email, Some company,
    Some position, Some connected_on, Some url =>
      build first_name last_name email company position connected_on url
  | _, _, _, _, _, _, _ => AttributeError
  end.

(** The loop of [parse_linkedin_export] over the rows of the reader:
    the list returned, or [None] when a row raised. *)
Fixpoint parse_rows (rows : list row) : option (list contact) :=
  match rows with
  | [] => Some []
  | r :: rest =>
      match process_row r with
      | AttributeError => None
      | Skipped => parse_rows rest
      | Appended c => (c ::.) <$> parse_rows rest
      end
  end.

End Parser.

End LinkedIn.

(** ** The wording of the specification *)

Module Wording.

(** Left to right, a double quote opens a quoted substring and the next
    one closes it. [commas_outside inq pos s]: the positions of the commas of
    [s] read outside a quoted substring, [inq] telling whether [s] starts
    inside one. *)
Fixpoint commas_outside (inq : bool) (pos : nat) (s : string) : list nat :=
  match s with
  | EmptyString => []
  | String c r =>
      if Ascii.eqb c Str.dquote then commas_outside (negb inq) (S pos) r
      else if Ascii.eqb c "," && negb inq then pos :: commas_outside inq (S pos) r
      else commas_outside inq (S pos) r
  end.


Fixpoint count_quotes (s : string) : nat :=
  match s with
  | EmptyString => O
  | String c r =>
      if Ascii.eqb c Str.dquote then S (count_quotes r) else count_quotes r
  end.

(** Section 4.6: the total interaction count of an entry of the dict. *)
Definition interactions_of (item : string * Mail.contact) : Z :=
  Mail.sent_count (snd item) + Mail.received_count (snd item).

(** Section 4.6: the record emitted for an included contact: its name,
    its email (the key of the entry), one domain of its set (the empty
    text when the set is empty), its total, its two counts, and its first
    and last seen as ISO texts (the empty text when absent). *)
Definition is_row_of (isoformat : datetime -> string)
    (item : string * Mail.contact) (r : Mail.Out.row) : Prop :=
  Mail.Out.email r = fst item /\
  Mail.Out.name r = Mail.name (snd item) /\
  Mail.Out.sent_count r = Mail.sent_count (snd item) /\
  Mail.Out.received_count r = Mail.received_count (snd item) /\
  Mail.Out.total_interactions r = interactions_of item /\
  Mail.Out.first_seen r =
    match Mail.first_seen (snd item) with Some d => isoformat d | None => "" end /\
  Mail.Out.last_seen r =
    match Mail.last_seen (snd item) with Some d => isoformat d | None => "" end /\
  ((Mail.domains (snd item) = ∅ /\ Mail.Out.domain r = "") \/
   Mail.Out.domain r ∈ Mail.domains (snd item)).

(** Section 4.7: lowercase, remove spaces and commas, truncate to 20
    characters. *)
Fixpoint without_spaces_and_commas (s : string) : string :=
  match s with
  | EmptyString => EmptyString
  | String c r =>
      if Ascii.eqb c " " || Ascii.eqb c ","
      then without_spaces_and_commas r
      else String c (without_spaces_and_commas r)
  end.

Definition domain_label (company : string) : string :=
  Str.take 20 (without_spaces_and_commas (Str.lower company)).

(** Section 4.7: a field is the cell under the first of its column names
    that the row has, and the empty text when it has none of them. *)
Fixpoint field (r : LinkedIn.row) (names : list string) : string :=
  match names with
  | [] => ""
  | k :: rest =>
      match r !! k with
      | Some (Some v) => v
      | Some None => ""
      | None => field r rest
      end
  end.

(** A row all of whose cells were on its line. *)
Definition complete (r : LinkedIn.row) : Prop := forall k, r !! k <> Some None.

(** Section 4.7: [fmt] is the first pattern of the list that matches
    [s], with value [d]. *)
Definition first_match (strptime : string -> string -> option datetime)
    (fmts : list string) (s fmt : string) (d : datetime) : Prop :=
  exists before after,
    fmts = (before ++ fmt :: after)%list /\
    Forall (fun f => strptime s f = None) before /\
    strptime s fmt = Some d.

Definition no_match (strptime : string -> string -> option datetime)
    (fmts : list string) (s : string) : Prop :=
  Forall (fun f => strptime s f = None) fmts.

End Wording.

(** ** Sample library behaviour, for the concrete runs *)

Module Sample.

(** [decode_header] on a header without encoded words. *)
Definition decode_header (s : string) : list Mail.header_part := [Mail.PartStr s].
Definition bytes_decode (b : list Byte.byte) (enc : string) : option string := None.
Definition decode_utf8 (b : list Byte.byte) : string := "".

Fixpoint before (c : ascii) (s : string) : string :=
  match s with
  | EmptyString => EmptyString
  | String x r => if Ascii.eqb x c then EmptyString else String x (before c r)
  end.

Fixpoint after (c : ascii) (s : string) : option string :=
  match s with
  | EmptyString => None
  | String x r => if Ascii.eqb x c then Some r else after c r
  end.

(** [parseaddr] on the two shapes [Name <addr>] and bare [addr]. *)
Definition parseaddr (s : string) : string * string :=
  match after "<" s with
  | Some rest =>
      (Str.strip_char Str.dquote (Str.strip (before "<" s)), before ">" rest)
  | None => ("", s)
  end.

Definition jan_1_2024_10h : Z := 1704103200000000.
Definition jan_15_2024 : Z := 1705276800000000.

(** [strptime] on three texts; every other pair is a [ValueError]. *)
Definition strptime (s fmt : string) : option datetime :=
  if String.eqb s "Mon, 01 Jan 2024 10:00:00 +0000"
     && String.eqb fmt "%a, %d %b %Y %H:%M:%S %z"
  then Some (mk_datetime jan_1_2024_10h (Some 0))
  else if String.eqb s "01 Jan 2024 10:00:00"
          && String.eqb fmt "%d %b %Y %H:%M:%S"
  then Some (mk_datetime jan_1_2024_10h None)
  else if String.eqb s "15 Jan 2024" && String.eqb fmt "%d %b %Y"
  then Some (mk_datetime jan_15_2024 None)
  else None.

Definition isoformat (d : datetime) : string :=
  if wall d =? jan_15_2024 then "2024-01-15T00:00:00"
  else if wall d =? jan_1_2024_10h then
    match utcoffset d with
    | Some _ => "2024-01-01T10:00:00+00:00"
    | None => "2024-01-01T10:00:00"
    end
  else "".

(** A row of the export with a first name, a company and a date. *)
Definition acme_row : LinkedIn.row :=
  {[ "First Name" := Some " Jane ";
     "Company" := Some "Acme, Inc.";
     "Connected On" := Some " 15 Jan 2024" ]}.

End Sample.

(** ** The rest of the mail program *)

Module Session.

(** [ContactExtractor.IMAP_SERVERS]. *)
Definition IMAP_SERVERS : gmap string string :=
  {[ "gmail.com" := "imap.gmail.com";
     "googlemail.com" := "imap.gmail.com";
     "outlook.com" := "imap-mail.outlook.com";
     "hotmail.com" := "imap-mail.outlook.com";
     "yahoo.com" := "imap.mail.yahoo.com";
     "icloud.com" := "imap.mail.me.com" ]}.

(** [ContactExtractor._detect_imap_server]. *)
Definition _detect_imap_server (email_address : string) : string :=
  let domain := Str.lower (Str.after_last "@" email_address) in
  match IMAP_SERVERS !! domain with
  | Some server => server
  | None => "imap." ++ domain
  end.

(** Line 58 of [__init__]: [imap_server or self._detect_imap_server(...)]. *)
Definition init_imap_server (email_address : string) (imap_server : option string)
    : string :=
  match imap_server with
  | Some server =>
      if Str.truthy server then server else _detect_imap_server email_address
  | None => _detect_imap_server email_address
  end.

(** The list of [scan_all]. *)
Definition priority_folders : list string :=
  [ "INBOX"; "[Gmail]/Sent Mail"; "[Gmail]/All Mail";
    "Sent"; "Sent Items"; "Sent Messages" ].

Section ScanAll.

Variable owner : string.
Variable decode_header : string -> list Mail.header_part.
Variable bytes_decode : list Byte.byte -> string -> option string.
Variable decode_utf8 : list Byte.byte -> string.
Variable parseaddr : string -> string * string.
Variable strptime : string -> string -> option datetime.
(** What the mail session answers for each folder name. *)
Variable session : string -> Mail.folder_view.

(** The loop of [scan_all], lines 269-272. *)
Fixpoint scan_folders (limit_per_folder : option Z) (folders : list string)
    (scanned_folders : gset string) (d : Mail.contacts) : Mail.contacts :=
  match folders with
  | [] => d
  | folder :: rest =>
      if bool_decide (Str.lower folder ∈ scanned_folders)
      then scan_folders limit_per_folder rest scanned_folders d
      else
        let d' :=
          fst (Mail.scan_folder owner decode_header bytes_decode decode_utf8
                 parseaddr strptime folder limit_per_folder (session folder) d) in
        scan_folders limit_per_folder rest
          ({[ Str.lower folder ]} ∪ scanned_folders) d'
  end.

(** [ContactExtractor.scan_all]. The answer of [self.mail.list()] on its
    first line is not used. *)
Definition scan_all (limit_per_folder : option Z) (d : Mail.contacts)
    : Mail.contacts :=
  scan_folders limit_per_folder priority_folders ∅ d.

End ScanAll.

End Session.

(** ** The rest of the LinkedIn program *)

Module Network.

(** [s.split(c)] for a one-character [c]. *)
Fixpoint split (c : ascii) (s : string) : list string :=
  match s with
  | EmptyString => [""]
  | String x r =>
      if Ascii.eqb x c then "" :: split c r
      else
        match split c r with
        | p :: ps => String x p :: ps
        | [] => [String x ""]
        end
  end.

Definition newline : ascii := ascii_of_N 10.

(** Line 30: the test that makes a line the header row. *)
Definition is_header (line : string) : bool :=
  Str.contains "First Name" line || Str.contains "Email" line.

(** Lines 28-32: the index of the first header line, [0] without one. *)
Fixpoint find_header (i : nat) (lines : list string) : nat :=
  match lines with
  | [] => O
  | line :: rest => if is_header line then i else find_header (S i) rest
  end.

Definition header_idx (lines : list string) : nat := find_header O lines.

(** Lines 24-35: the lines handed to [csv.DictReader]. *)
Definition table_lines (content : string) : list string :=
  let lines := split newline (Str.strip content) in
  drop (header_idx lines) lines.

(** A [defaultdict(int)] in the order its keys came in. *)
Definition counter := list (string * Z).

Fixpoint count_of (k : string) (m : counter) : Z :=
  match m with
  | [] => 0
  | (k', n) :: r => if String.eqb k k' then n else count_of k r
  end.

(** [m[k] += 1]. *)
Fixpoint bump (k : string) (m : counter) : counter :=
  match m with
  | [] => [(k, 1)]
  | (k', n) :: r =>
      if String.eqb k k' then (k', n + 1) :: r else (k', n) :: bump k r
  end.

(** The loop of [analyze_network], lines 89-97: the two counters. *)
Fixpoint tally (contacts : list LinkedIn.contact) (companies years : counter)
    : counter * counter :=
  match contacts with
  | [] => (companies, years)
  | c :: rest =>
      let companies' :=
        if Str.truthy (LinkedIn.company c)
        then bump (LinkedIn.company c) companies else companies in
      let years' :=
        if Str.truthy (LinkedIn.connected_on c)
        then bump (Str.take 4 (LinkedIn.connected_on c)) years else years in
      tally rest companies' years'
  end.

(** [sorted(items, key=lambda x: -x[1])]: stable, largest count first. *)
Fixpoint insert_by_count (x : string * Z) (l : counter) : counter :=
  match l with
  | [] => [x]
  | y :: r => if snd x <? snd y then y :: insert_by_count x r else x :: l
  end.

Fixpoint sorted_by_count (l : counter) : counter :=
  match l with
  | [] => []
  | x :: r => insert_by_count x (sorted_by_count r)
  end.

(** The order of Python on pairs (text, number): by text, code point by
    code point, then by number. *)
Definition pair_leb (x y : string * Z) : bool :=
  match String.compare (fst x) (fst y) with
  | Lt => true
  | Eq => snd x <=? snd y
  | Gt => false
  end.

(** [sorted(items)]: stable, smallest pair first. *)
Fixpoint insert_pair (x : string * Z) (l : counter) : counter :=
  match l with
  | [] => [x]
  | y :: r => if pair_leb x y then x :: l else y :: insert_pair x r
  end.

Fixpoint sorted_pairs (l : counter) : counter :=
  match l with
  | [] => []
  | x :: r => insert_pair x (sorted_pairs r)
  end.

(** The dict [analyze_network] returns. *)
Record stats := mk_stats {
  total_connections : Z;
  with_email : Z;
  top_companies : counter;
  by_year : counter
}.

(** [analyze_network]. *)
Definition analyze_network (contacts : list LinkedIn.contact) : stats :=
  let '(companies, years) := tally contacts [] [] in
  {| total_connections := Z.of_nat (length contacts);
     with_email :=
       Z.of_nat (length (List.filter (fun c => Str.truthy (LinkedIn.email c)) contacts));
     top_companies := take 10 (sorted_by_count companies);
     by_year := sorted_pairs years |}.

End Network.

(** ** A sample dict, for the concrete runs *)

Module SampleDict.

Definition jo : Mail.contact :=
  {| Mail.name := "Jo Ann"; Mail.email := "jo@x.org"; Mail.sent_count := 2;
     Mail.received_count := 1; Mail.first_seen := None; Mail.last_seen := None;
     Mail.domains := {[ "x.org" ]} |}.

Definition bob : Mail.contact :=
  {| Mail.name := ""; Mail.email := "bob@y.com"; Mail.sent_count := 1;
     Mail.received_count := 0; Mail.first_seen := None; Mail.last_seen := None;
     Mail.domains := {[ "y.com" ]} |}.

Definition two_contacts : Mail.contacts := [("bob@y.com", bob); ("jo@x.org", jo)].

End SampleDict.

(** ** Measures used in the statements *)

Module Measure.

(** Whether a datetime carries a UTC offset. *)
Definition is_aware (d : datetime) : bool :=
  match utcoffset d with Some _ => true | None => false end.

(** All interactions a dict has counted. *)
Fixpoint interactions (d : Mail.contacts) : Z :=
  match d with
  | [] => 0
  | (_, c) :: r => Mail.sent_count c + Mail.received_count c + interactions r
  end.

(** The observations whose address is not the owner's. *)
Definition foreign (owner : string) (obs : list Mail.observation)
    : list Mail.observation :=
  List.filter
    (fun o => negb (String.eqb (Str.lower (Mail.obs_email o)) (Str.lower owner)))
    obs.

(** The contacts that have [company] as their company. *)
Definition employees (company : string) (contacts : list LinkedIn.contact) : Z :=
  Z.of_nat (length (List.filter (fun c => String.eqb (LinkedIn.company c) company) contacts)).

(** How many times a character occurs in a text. *)
Fixpoint count_char (c : ascii) (s : string) : nat :=
  match s with
  | EmptyString => O
  | String x r => if Ascii.eqb x c then S (count_char c r) else count_char c r
  end.

(** An entry whose set of domains is the one domain of its key. *)
Definition one_domain (item : string * Mail.contact) : Prop :=
  Mail.domains (snd item) = {[ Str.after_last "@" (fst item) ]}.

(** A dict as the aggregator keeps it: well-formed entries, none under
    the owner's address, no key twice, one domain per entry. *)
Definition tidy (owner : string) (d : Mail.contacts) : Prop :=
  Forall Mail.entry_ok d /\
  Forall (fun k => Str.lower k <> Str.lower owner) (Mail.keys d) /\
  NoDup (Mail.keys d) /\
  Forall one_domain d.

(** A counter item with a non-empty key and a positive count. *)
Definition named (p : string * Z) : Prop := Str.truthy (fst p) = true /\ 1 <= snd p.


(** Largest count first. *)
Definition by_count (a b : string * Z) : Prop := snd b <= snd a.



End Measure.

(** * Properties *)

(** ** Strings *)

Module StrFacts.
Import Str.

Lemma lower_char_idem (c : ascii) : lower_char (lower_char c) = lower_char c.
Proof. destruct c as [[] [] [] [] [] [] [] []]; reflexivity. Qed.

Lemma lower_idem (s : string) : lower (lower s) = lower s.
Proof.
  induction s as [|c r IH]; simpl; [reflexivity|].
  now rewrite lower_char_idem, IH.
Qed.

Lemma lower_char_at (c : ascii) :
  Ascii.eqb (lower_char c) "@" = Ascii.eqb c "@".
Proof. destruct c as [[] [] [] [] [] [] [] []]; reflexivity. Qed.

Lemma mem_at_lower (s : string) : mem "@" (lower s) = mem "@" s.
Proof.
  induction s as [|c r IH]; simpl; [reflexivity|].
  now rewrite lower_char_at, IH.
Qed.

Lemma truthy_false (s : string) : truthy s = false <-> s = "".
Proof. destruct s; simpl; split; congruence. Qed.

Lemma truthy_length (s : string) : truthy s = (0 <? String.length s)%nat.
Proof. destruct s; reflexivity. Qed.

(** A character that [p] rejects survives on both sides. *)
Lemma mem_lstrip (p : ascii -> bool) (c : ascii) (s : string) :
  p c = false -> mem c (lstrip p s) = mem c s.
Proof.
  intros Hc. induction s as [|x r IH]; simpl; [reflexivity|].
  destruct (p x) eqn:Hx; simpl; [|reflexivity].
  rewrite IH. destruct (Ascii.eqb_spec x c) as [->|]; [congruence|reflexivity].
Qed.

Lemma rstrip_empty_mem (p : ascii -> bool) (c : ascii) (s : string) :
  p c = false -> rstrip p s = "" -> mem c s = false.
Proof.
  intros Hc. induction s as [|x r IH]; simpl; [reflexivity|].
  destruct (p x && negb (truthy (rstrip p r))) eqn:E; [|discriminate].
  intros _. apply andb_true_iff in E as [Hx Hr].
  apply negb_true_iff, truthy_false in Hr.
  rewrite (IH Hr), orb_false_r.
  destruct (Ascii.eqb_spec x c) as [->|]; [congruence|reflexivity].
Qed.

Lemma mem_rstrip (p : ascii -> bool) (c : ascii) (s : string) :
  p c = false -> mem c (rstrip p s) = mem c s.
Proof.
  intros Hc. induction s as [|x r IH]; simpl; [reflexivity|].
  destruct (p x && negb (truthy (rstrip p r))) eqn:E; simpl.
  - apply andb_true_iff in E as [Hx Hr].
    apply negb_true_iff, truthy_false in Hr.
    rewrite (rstrip_empty_mem p c r Hc Hr), orb_false_r.
    destruct (Ascii.eqb_spec x c) as [->|]; [congruence|reflexivity].
  - now rewrite IH.
Qed.

Lemma mem_strip_by (p : ascii -> bool) (c : ascii) (s : string) :
  p c = false -> mem c (strip_by p s) = mem c s.
Proof.
  intros Hc. unfold strip_by. now rewrite mem_rstrip, mem_lstrip.
Qed.

(** Stripping keeps a string in lower case. *)
Lemma lower_lstrip (p : ascii -> bool) (s : string) :
  lower s = s -> lower (lstrip p s) = lstrip p s.
Proof.
  induction s as [|x r IH]; simpl; [reflexivity|].
  intros H. injection H as Hx Hr.
  destruct (p x); [now apply IH|]. simpl. now rewrite Hx, Hr.
Qed.

Lemma lower_rstrip (p : ascii -> bool) (s : string) :
  lower s = s -> lower (rstrip p s) = rstrip p s.
Proof.
  induction s as [|x r IH]; simpl; [reflexivity|].
  intros H. injection H as Hx Hr.
  destruct (p x && negb (truthy (rstrip p r))); [reflexivity|].
  simpl. now rewrite Hx, IH.
Qed.

Lemma lower_strip_by (p : ascii -> bool) (s : string) :
  lower s = s -> lower (strip_by p s) = strip_by p s.
Proof. intros H. unfold strip_by. now apply lower_rstrip, lower_lstrip. Qed.

(** Once stripped, a string has nothing left to strip. *)
Lemma rstrip_idem (p : ascii -> bool) (s : string) :
  rstrip p (rstrip p s) = rstrip p s.
Proof.
  induction s as [|x r IH]; simpl; [reflexivity|].
  destruct (p x && negb (truthy (rstrip p r))) eqn:E; [reflexivity|].
  simpl. now rewrite IH, E.
Qed.

Lemma lstrip_head (p : ascii -> bool) (s : string) :
  match lstrip p s with
  | EmptyString => True
  | String c _ => p c = false
  end.
Proof.
  induction s as [|x r IH]; simpl; [exact I|].
  destruct (p x) eqn:Hx; [exact IH|exact Hx].
Qed.

Lemma lstrip_rstrip_lstrip (p : ascii -> bool) (s : string) :
  lstrip p (rstrip p (lstrip p s)) = rstrip p (lstrip p s).
Proof.
  pose proof (lstrip_head p s) as H.
  destruct (lstrip p s) as [|c r]; simpl; [reflexivity|].
  rewrite H. simpl. now rewrite H.
Qed.

Lemma strip_by_idem (p : ascii -> bool) (s : string) :
  strip_by p (strip_by p s) = strip_by p s.
Proof.
  unfold strip_by. now rewrite lstrip_rstrip_lstrip, rstrip_idem.
Qed.

Lemma take_length (n : nat) (s : string) : (String.length (take n s) <= n)%nat.
Proof.
  revert s; induction n as [|n IH]; intros [|c r]; simpl; try lia.
  specialize (IH r). lia.
Qed.

End StrFacts.

(** ** The contact aggregator *)

Module MailFacts.
Import Mail.

(** *** The dict *)

Lemma lookup_store_eq (k : string) (c : contact) (d : contacts) :
  lookup k (store k c d) = Some c.
Proof.
  induction d as [|[k' c'] r IH]; simpl.
  - now rewrite String.eqb_refl.
  - destruct (String.eqb k k') eqn:E; simpl; rewrite E; [reflexivity|exact IH].
Qed.

Lemma lookup_store_ne (k k' : string) (c : contact) (d : contacts) :
  k <> k' -> lookup k' (store k c d) = lookup k' d.
Proof.
  intros Hne. induction d as [|[k0 c0] r IH]; simpl.
  - apply String.eqb_neq in Hne. rewrite String.eqb_sym in Hne. now rewrite Hne.
  - destruct (String.eqb k k0) eqn:E; simpl.
    + apply String.eqb_eq in E. subst k0.
      assert (String.eqb k' k = false) as -> by (apply String.eqb_neq; congruence).
      reflexivity.
    + now rewrite IH.
Qed.

Lemma getitem_store_eq (k : string) (c : contact) (d : contacts) :
  getitem k (store k c d) = c.
Proof. unfold getitem. now rewrite lookup_store_eq. Qed.

Lemma getitem_store_ne (k k' : string) (c : contact) (d : contacts) :
  k <> k' -> getitem k' (store k c d) = getitem k' d.
Proof. intros H. unfold getitem. now rewrite lookup_store_ne. Qed.

Lemma Forall_store (P : string * contact -> Prop) (k : string) (c : contact)
    (d : contacts) :
  Forall P d -> P (k, c) -> Forall P (store k c d).
Proof.
  intros Hd Hc. induction Hd as [|[k' c'] r Hx Hr IH]; simpl.
  - now constructor.
  - destruct (String.eqb_spec k k') as [->|]; constructor; assumption.
Qed.

Lemma lookup_Forall (P : string * contact -> Prop) (k : string) (c : contact)
    (d : contacts) :
  Forall P d -> lookup k d = Some c -> P (k, c).
Proof.
  intros Hd. induction Hd as [|[k' c'] r Hx Hr IH]; simpl; [discriminate|].
  destruct (String.eqb_spec k k') as [->|]; [|exact IH].
  intros [= ->]. exact Hx.
Qed.

Lemma lookup_None_keys (k : string) (d : contacts) :
  lookup k d = None <-> ~ In k (keys d).
Proof.
  induction d as [|[k' c'] r IH]; simpl; [tauto|].
  destruct (String.eqb_spec k k') as [->|Hne]; split.
  - discriminate.
  - intros H. exfalso. apply H. now left.
  - intros H [Heq|Hin]; [congruence|]. now apply IH.
  - intros H. apply IH. tauto.
Qed.

(** *** One call *)

Lemma update_dates_None (c : contact) : update_dates None c = (c, false).
Proof. reflexivity. Qed.

Ltac dates_cases :=
  unfold update_dates, dt_gt;
  repeat (simpl in *; case_match; simplify_eq; simpl in * ); auto.

(** The dates are all [update_dates] writes. *)
Lemma update_dates_others (date : option datetime) (c : contact) :
  let c' := fst (update_dates date c) in
  name c' = name c /\ email c' = email c /\
  sent_count c' = sent_count c /\ received_count c' = received_count c /\
  domains c' = domains c.
Proof. destruct c; dates_cases. Qed.

Lemma dt_lt_inv (a b : datetime) (r : bool) :
  dt_lt a b = Some r ->
  (utcoffset a = None /\ utcoffset b = None /\ r = (wall a <? wall b)) \/
  (exists oa ob, utcoffset a = Some oa /\ utcoffset b = Some ob /\
                 r = (wall a - oa <? wall b - ob)).
Proof.
  unfold dt_lt. destruct (utcoffset a), (utcoffset b); intros [= <-]; eauto 10.
Qed.

Lemma dt_le_refl (a : datetime) : dt_le a a = Some true.
Proof.
  unfold dt_le, dt_lt. destruct (utcoffset a); simpl; f_equal;
    apply negb_true_iff, Z.ltb_ge; lia.
Qed.

Ltac ltb_cases :=
  repeat match goal with
    | H : Some _ = Some _ |- _ => injection H as H
    | H : negb _ = true |- _ => apply negb_true_iff in H
    | H : (_ <? _) = true |- _ => apply Z.ltb_lt in H
    | H : (_ <? _) = false |- _ => apply Z.ltb_ge in H
    | |- context [?a <? ?b] => destruct (a <? b) eqn:?; simpl
    end.

Lemma update_dates_ok (date : option datetime) (c : contact) :
  dates_ok c -> dates_ok (fst (update_dates date c)).
Proof.
  destruct date as [[wd [od|]]|]; [| |auto];
    destruct c as [n e s r [[wf [o1|]]|] [[wl [o2|]]|] ds];
    unfold dates_ok, update_dates, dt_gt, dt_le, dt_lt; simpl;
    try tauto; try discriminate; intros H; ltb_cases;
    try reflexivity; try tauto; try lia;
    f_equal; apply negb_true_iff, Z.ltb_ge; lia.
Qed.

Lemma update_dates_raised (date : option datetime) (c : contact) :
  snd (update_dates date c) = true -> first_seen c <> None \/ last_seen c <> None.
Proof.
  destruct date as [d|]; [|discriminate].
  destruct c as [n e s r [f|] [l|] ds]; simpl; auto; try discriminate.
Qed.

Lemma update_contact_eq (owner nm addr : string) (date : option datetime)
    (is_sent : bool) (d : contacts) :
  _update_contact owner nm addr date is_sent d =
  let k := Str.lower addr in
  if String.eqb k (Str.lower owner) then Done d
  else
    let r := updated nm k date is_sent (getitem k d) in
    if snd r then Raised (store k (fst r) d) else Done (store k (fst r) d).
Proof.
  unfold _update_contact, updated. simpl.
  destruct (String.eqb _ _); [reflexivity|].
  destruct (update_dates _ _) as [c4 []]; reflexivity.
Qed.

Lemma state_of_update (owner nm addr : string) (date : option datetime)
    (is_sent : bool) (d : contacts) :
  Str.lower addr <> Str.lower owner ->
  state_of (_update_contact owner nm addr date is_sent d) =
  store (Str.lower addr)
        (fst (updated nm (Str.lower addr) date is_sent (getitem (Str.lower addr) d)))
        d.
Proof.
  intros Hne. rewrite update_contact_eq. simpl.
  apply String.eqb_neq in Hne. rewrite Hne.
  destruct (snd _); reflexivity.
Qed.

Lemma state_of_update_owner (owner nm addr : string) (date : option datetime)
    (is_sent : bool) (d : contacts) :
  Str.lower addr = Str.lower owner ->
  _update_contact owner nm addr date is_sent d = Done d.
Proof.
  intros He. rewrite update_contact_eq. simpl.
  apply String.eqb_eq in He. now rewrite He.
Qed.

Ltac open_updated :=
  unfold updated;
  match goal with
  | |- context [update_dates ?date ?c] =>
      let H := fresh "Hothers" in
      pose proof (update_dates_others date c) as H;
      let E := fresh "Edates" in
      destruct (update_dates date c) as [? []] eqn:E; simpl in H;
      destruct H as (Hnm & Hem & Hsc & Hrc & Hdm)
  end; simpl.

Lemma updated_email (nm k : string) (date : option datetime) (is_sent : bool)
    (c0 : contact) :
  email (fst (updated nm k date is_sent c0)) = k.
Proof.
  open_updated; [|simpl]; etrans; eauto;
    unfold update_counts, update_name; repeat case_match; reflexivity.
Qed.

Lemma updated_name (nm k : string) (date : option datetime) (is_sent : bool)
    (c0 : contact) :
  name (fst (updated nm k date is_sent c0)) =
  if better_name nm (name c0) then nm else name c0.
Proof.
  open_updated; [|simpl]; etrans; eauto;
    unfold update_counts, update_name; simpl;
    destruct is_sent, (better_name nm (name c0)); reflexivity.
Qed.

Lemma updated_counts (nm k : string) (date : option datetime) (is_sent : bool)
    (c0 : contact) :
  let c := fst (updated nm k date is_sent c0) in
  sent_count c = sent_count c0 + (if is_sent then 1 else 0) /\
  received_count c = received_count c0 + (if is_sent then 0 else 1).
Proof.
  simpl. open_updated; [|simpl]; split; etrans; eauto;
    unfold update_counts, update_name; simpl;
    destruct is_sent, (better_name nm (name c0)); simpl; lia.
Qed.

Lemma updated_no_date (nm k : string) (is_sent : bool) (c0 : contact) :
  let r := updated nm k None is_sent c0 in
  snd r = false /\
  first_seen (fst r) = first_seen c0 /\ last_seen (fst r) = last_seen c0.
Proof.
  unfold updated. rewrite update_dates_None. simpl.
  unfold update_counts, update_name.
  destruct is_sent, (better_name nm (name (set_email k c0))); simpl; auto.
Qed.

Lemma dates_ok_before (nm k : string) (is_sent : bool) (c0 : contact) :
  let c3 := update_counts is_sent (update_name nm (set_email k c0)) in
  first_seen c3 = first_seen c0 /\ last_seen c3 = last_seen c0.
Proof.
  unfold update_counts, update_name.
  destruct is_sent, (better_name nm (name (set_email k c0))); simpl; auto.
Qed.

(** A call leaves a well-formed entry under its key, whether it found
    one there or made it. *)
Lemma updated_entry_ok (nm k : string) (date : option datetime) (is_sent : bool)
    (c0 : contact) :
  Str.lower k = k ->
  c0 = default_contact \/ entry_ok (k, c0) ->
  entry_ok (k, fst (updated nm k date is_sent c0)).
Proof.
  intros Hk Hc0.
  pose proof (updated_email nm k date is_sent c0) as He.
  pose proof (updated_counts nm k date is_sent c0) as [Hs Hr].
  pose proof (dates_ok_before nm k is_sent c0) as [Hf Hl].
  assert (dates_ok c0) as Hd0.
  { destruct Hc0 as [->|(_&_&_&_&Hd)]; [exact I|exact Hd]. }
  assert (1 <= sent_count c0 + received_count c0 + 1) as Hsum.
  { destruct Hc0 as [->|(_&_&Hc&_&_)]; simpl; lia. }
  unfold entry_ok. repeat split; try assumption.
  - rewrite Hs, Hr. destruct is_sent; lia.
  - revert He Hs Hr. open_updated; intros _ _ _.
    + rewrite Hdm. unfold update_counts, update_name.
      assert (domains c0 <> ∅) as Hdom.
      { destruct Hc0 as [->|(_&_&_&Hne&_)]; [|exact Hne].
        apply (f_equal snd) in Edates. simpl in Edates.
        apply update_dates_raised in Edates. simpl in Edates.
        destruct is_sent, (better_name nm ""); simpl in Edates; tauto. }
      destruct is_sent, (better_name nm _); exact Hdom.
    + apply (non_empty_inhabited_L (Str.after_last "@" k)).
      apply elem_of_union_l, elem_of_singleton. reflexivity.
  - revert He Hs Hr. unfold updated.
    pose proof (update_dates_ok date
                  (update_counts is_sent (update_name nm (set_email k c0)))) as Hok.
    destruct (update_dates _ _) as [c4 []]; intros _ _ _; simpl in *;
      apply Hok; unfold dates_ok; rewrite Hf, Hl; exact Hd0.
Qed.

(** *** A stream of calls *)

Lemma feed_invariant (owner : string) (P : contacts -> Prop) :
  (forall nm addr date is_sent d,
      P d -> P (state_of (_update_contact owner nm addr date is_sent d))) ->
  forall obs d, P d -> P (feed owner obs d).
Proof.
  intros Hstep obs. unfold feed.
  induction obs as [|o r IH]; intros d Hd; simpl; [exact Hd|].
  apply IH, Hstep, Hd.
Qed.

Lemma no_owner_step (owner nm addr : string) (date : option datetime)
    (is_sent : bool) (d : contacts) :
  Forall (fun item => Str.lower (fst item) <> Str.lower owner) d ->
  Forall (fun item => Str.lower (fst item) <> Str.lower owner)
         (state_of (_update_contact owner nm addr date is_sent d)).
Proof.
  intros Hd.
  destruct (String.eqb_spec (Str.lower addr) (Str.lower owner)) as [He|Hne].
  - now rewrite state_of_update_owner.
  - rewrite state_of_update by assumption.
    apply Forall_store; [exact Hd|]. simpl.
    now rewrite StrFacts.lower_idem.
Qed.

Lemma entry_ok_step (owner nm addr : string) (date : option datetime)
    (is_sent : bool) (d : contacts) :
  Forall entry_ok d ->
  Forall entry_ok (state_of (_update_contact owner nm addr date is_sent d)).
Proof.
  intros Hd.
  destruct (String.eqb_spec (Str.lower addr) (Str.lower owner)) as [He|Hne].
  - now rewrite state_of_update_owner.
  - rewrite state_of_update by assumption.
    apply Forall_store; [exact Hd|].
    apply updated_entry_ok; [apply StrFacts.lower_idem|].
    unfold getitem. destruct (lookup _ d) as [c|] eqn:E; [right|now left].
    now apply (lookup_Forall entry_ok _ _ d).
Qed.

(** C2. Whatever observations reach the aggregator, and however the
    owner's address is written in them, no key of the contacts dict is
    the owner's address under case-insensitive comparison; in
    particular the dict has no entry under the owner's lowercased
    address. *)
Theorem owner_never_a_contact (owner : string) (obs : list observation) :
  Forall (fun k => Str.lower k <> Str.lower owner) (keys (feed owner obs [])) /\
  lookup (Str.lower owner) (feed owner obs []) = None.
Proof.
  assert (Forall (fun item => Str.lower (fst item) <> Str.lower owner)
                 (feed owner obs [])) as H.
  { apply feed_invariant; [|constructor].
    intros. now apply no_owner_step. }
  split.
  - unfold keys. apply Forall_map. exact H.
  - apply lookup_None_keys. unfold keys. intros Hin.
    apply in_map_iff in Hin as (item & Hk & Hin).
    rewrite Forall_forall in H. apply (H item).
    + now apply list_elem_of_In.
    + now rewrite Hk, StrFacts.lower_idem.
Qed.

(** C10. After any stream of aggregator updates every entry of the
    contacts dict has its email field equal to its key, the key in
    lower case, at least one interaction counted, a non-empty set of
    domains, and first and last seen either both absent or both set,
    comparable, the first not after the last. *)
Theorem entries_well_formed (owner : string) (obs : list observation) :
  Forall entry_ok (feed owner obs []).
Proof.
  apply feed_invariant; [|constructor].
  intros. now apply entry_ok_step.
Qed.

(** C4. For a contact (an address other than the owner's) and a
    candidate name, the call stores the candidate exactly when it is
    non-empty and strictly longer than the name stored before it;
    otherwise the stored name stays, so an equally long or a shorter
    candidate never overwrites. *)
Theorem name_replaced_iff_longer (owner nm addr : string)
    (date : option datetime) (is_sent : bool) (d : contacts) :
  Str.lower addr <> Str.lower owner ->
  let k := Str.lower addr in
  let d' := state_of (_update_contact owner nm addr date is_sent d) in
  name_of k d' =
  if Str.truthy nm && (String.length (name_of k d) <? String.length nm)%nat
  then nm else name_of k d.
Proof.
  intros Hne k d'. subst d'. unfold name_of.
  rewrite state_of_update by assumption. fold k.
  rewrite getitem_store_eq, updated_name.
  unfold better_name.
  destruct nm as [|a nm']; [reflexivity|]. simpl Str.truthy. simpl andb.
  destruct (name (getitem k d)) as [|b stored]; reflexivity.
Qed.

(** The two runs of the specification: Jo then Jo Ann ends as Jo Ann,
    and Jo Ann then Jo stays Jo Ann. *)
Lemma name_replaced_iff_longer_witness :
  let d1 := state_of (_update_contact "me@x.com" "Jo" "jo@x.org" None false []) in
  let d2 := state_of (_update_contact "me@x.com" "Jo Ann" "jo@x.org" None true d1) in
  let e1 := state_of (_update_contact "me@x.com" "Jo Ann" "jo@x.org" None false []) in
  let e2 := state_of (_update_contact "me@x.com" "Jo" "jo@x.org" None true e1) in
  (name_of "jo@x.org" d1 = "Jo" /\ name_of "jo@x.org" d2 = "Jo Ann") /\
  (name_of "jo@x.org" e1 = "Jo Ann" /\ name_of "jo@x.org" e2 = "Jo Ann").
Proof.
  intros d1 d2 e1 e2.
  assert (Str.lower "jo@x.org" <> Str.lower "me@x.com") as Hne by discriminate.
  split; split.
  - exact (name_replaced_iff_longer "me@x.com" "Jo" "jo@x.org" None false [] Hne).
  - exact (name_replaced_iff_longer "me@x.com" "Jo Ann" "jo@x.org" None true d1 Hne).
  - exact (name_replaced_iff_longer "me@x.com" "Jo Ann" "jo@x.org" None false [] Hne).
  - exact (name_replaced_iff_longer "me@x.com" "Jo" "jo@x.org" None true e1 Hne).
Defined.

(** *** Dates *)

Lemma try_formats_no_match (strptime : string -> string -> option datetime)
    (s : string) (fmts : list string) :
  Wording.no_match strptime fmts s -> try_formats strptime s fmts = None.
Proof.
  unfold Wording.no_match.
  induction 1 as [|fmt r Hfmt Hr IH]; simpl; [reflexivity|].
  now rewrite Hfmt.
Qed.

Lemma no_date_keeps_dates (owner nm addr : string) (is_sent : bool)
    (d : contacts) :
  exists d',
    _update_contact owner nm addr None is_sent d = Done d' /\
    forall k, first_seen_of k d' = first_seen_of k d /\
              last_seen_of k d' = last_seen_of k d.
Proof.
  rewrite update_contact_eq. cbv zeta.
  destruct (String.eqb _ _); [now exists d|].
  pose proof (updated_no_date nm (Str.lower addr) is_sent
                (getitem (Str.lower addr) d)) as (Hr & Hf & Hl).
  rewrite Hr.
  eexists; split; [reflexivity|].
  intros k. unfold first_seen_of, last_seen_of.
  destruct (String.eqb_spec (Str.lower addr) k) as [<-|Hne].
  - rewrite getitem_store_eq. now split.
  - rewrite getitem_store_ne by assumption. now split.
Qed.

(** C6. A date header that is empty, or that none of the four patterns
    matches once the trailing comment and the outer blanks are removed,
    parses to an absent value; the parser is a total function and so
    raises nothing. An update made with that value returns normally and
    leaves the first and last seen of every contact as they were. *)
Theorem absent_date_changes_nothing
    (strptime : string -> string -> option datetime)
    (owner date_str nm addr : string) (is_sent : bool) (d : contacts) :
  date_str = "" \/
  Wording.no_match strptime date_formats (Str.strip (re_sub_tz date_str)) ->
  _parse_date strptime date_str = None /\
  exists d',
    _update_contact owner nm addr (_parse_date strptime date_str) is_sent d
    = Done d' /\
    forall k, first_seen_of k d' = first_seen_of k d /\
              last_seen_of k d' = last_seen_of k d.
Proof.
  intros Hbad.
  assert (_parse_date strptime date_str = None) as Hnone.
  { unfold _parse_date. destruct Hbad as [->|Hno]; [reflexivity|].
    destruct (Str.truthy date_str); [|reflexivity].
    now apply try_formats_no_match. }
  split; [exact Hnone|].
  rewrite Hnone. apply no_date_keeps_dates.
Qed.

Lemma absent_date_changes_nothing_witness :
  let seen := [("jo@x.org",
                {| name := "Jo"; email := "jo@x.org"; sent_count := 0;
                   received_count := 1;
                   first_seen := Some (mk_datetime 5 None);
                   last_seen := Some (mk_datetime 9 None);
                   domains := {[ "x.org" ]} |})] in
  _parse_date Sample.strptime "yesterday (UTC)" = None /\
  exists d',
    _update_contact "me@x.com" "Jo" "jo@x.org"
      (_parse_date Sample.strptime "yesterday (UTC)") true seen = Done d' /\
    forall k, first_seen_of k d' = first_seen_of k seen /\
              last_seen_of k d' = last_seen_of k seen.
Proof.
  intros seen.
  apply (absent_date_changes_nothing Sample.strptime "me@x.com"
           "yesterday (UTC)" "Jo" "jo@x.org" true seen).
  right. unfold Wording.no_match. vm_compute. repeat constructor.
Defined.

(** *** Roles *)



Section Roles.

Variable owner : string.
Variable decode_header : string -> list header_part.
Variable bytes_decode : list Byte.byte -> string -> option string.
Variable decode_utf8 : list Byte.byte -> string.
Variable parseaddr : string -> string * string.
Variable strptime : string -> string -> option datetime.

Local Abbreviation addresses :=
  (_parse_email_addresses decode_header bytes_decode decode_utf8 parseaddr).
Local Abbreviation process :=
  (process_message owner decode_header bytes_decode decode_utf8 parseaddr
     strptime).



(** The name of the folder decides nothing in the scan. *)
Lemma scan_folder_any_name (folder folder' : string) (limit : option Z)
    (view : folder_view) (d : contacts) :
  scan_folder owner decode_header bytes_decode decode_utf8 parseaddr
    strptime folder limit view d =
  scan_folder owner decode_header bytes_decode decode_utf8 parseaddr
    strptime folder' limit view d.
Proof.
  unfold scan_folder.
  destruct (select_ok view), (search_ok view); simpl; try reflexivity.
  generalize (Str.contains "sent" (Str.lower folder)).
  generalize (Str.contains "sent" (Str.lower folder')).
  intros b b'. generalize 0.
  revert d. induction (most_recent limit (message_ids view)) as [|[| |msg] r IH];
    intros d n; simpl; auto.
  change (process_message owner decode_header bytes_decode decode_utf8
            parseaddr strptime b' msg d)
    with (process_message owner decode_header bytes_decode decode_utf8
            parseaddr strptime b msg d).
  destruct (process_message _ _ _ _ _ _ b msg d); apply IH.
Qed.


End Roles.


(** A message that is not processed to its end: its date has no offset,
    the sender was seen before with a date that has one, the comparison
    of the two raises, and the To header is never read. *)
Example naive_date_after_aware_date :
  let process :=
    process_message "me@x.com" Sample.decode_header Sample.bytes_decode
      Sample.decode_utf8 Sample.parseaddr Sample.strptime in
  let first := {| get_Date := "Mon, 01 Jan 2024 10:00:00 +0000";
                  get_From := "jo@x.org"; get_To := ""; get_Cc := "" |} in
  let second := {| get_Date := "01 Jan 2024 10:00:00";
                   get_From := "jo@x.org"; get_To := "bob@y.com";
                   get_Cc := "" |} in
  exists d1 d2,
    process false first [] = Done d1 /\
    process false second d1 = Raised d2 /\
    received_of "jo@x.org" d2 = 2 /\
    lookup "bob@y.com" d2 = None.
Proof.
  intros process first second.
  destruct (process false first []) as [d1|d1] eqn:E1; [|discriminate E1].
  destruct (process false second d1) as [d2|d2] eqn:E2.
  - exfalso. injection E1 as <-. vm_compute in E2. discriminate E2.
  - exists d1, d2. injection E1 as <-.
    split; [reflexivity|]. split; [exact E2|].
    injection E2 as <-. split; [reflexivity|]. split; reflexivity.
Qed.


(** *** Ranking *)

Lemma insert_desc_perm (x : Out.row) (l : list Out.row) :
  Permutation (insert_desc x l) (x :: l).
Proof.
  induction l as [|y r IH]; simpl; [reflexivity|].
  destruct (_ <? _); [|reflexivity].
  rewrite IH. apply perm_swap.
Qed.

Lemma sort_desc_perm (l : list Out.row) : Permutation (sort_desc l) l.
Proof.
  induction l as [|x r IH]; simpl; [reflexivity|].
  rewrite insert_desc_perm. now constructor.
Qed.

Lemma insert_desc_sorted (x : Out.row) (l : list Out.row) :
  StronglySorted by_total l -> StronglySorted by_total (insert_desc x l).
Proof.
  induction 1 as [|y r Hr IH Hy]; simpl.
  - repeat constructor.
  - destruct (Out.total_interactions x <? Out.total_interactions y) eqn:E.
    + apply Z.ltb_lt in E. constructor; [exact IH|].
      rewrite Forall_forall in *. intros z Hz.
      apply list_elem_of_In in Hz.
      apply (Permutation_in _ (insert_desc_perm x r)) in Hz as [<-|Hz].
      * unfold by_total. lia.
      * apply Hy. now apply list_elem_of_In.
    + apply Z.ltb_ge in E. constructor; [now constructor|].
      constructor; [exact E|].
      rewrite Forall_forall in *. intros z Hz.
      specialize (Hy z Hz). unfold by_total in *. lia.
Qed.

Lemma sort_desc_sorted (l : list Out.row) : StronglySorted by_total (sort_desc l).
Proof.
  induction l as [|x r IH]; simpl; [constructor|].
  now apply insert_desc_sorted.
Qed.

(** An insertion moves the new row only past rows of another total. *)
Lemma insert_desc_stable (t : Z) (x : Out.row) (l : list Out.row) :
  List.filter (has_total t) (insert_desc x l) = List.filter (has_total t) (x :: l).
Proof.
  induction l as [|y r IH]; [reflexivity|].
  cbn [insert_desc].
  destruct (Out.total_interactions x <? Out.total_interactions y) eqn:E;
    [|reflexivity].
  apply Z.ltb_lt in E.
  cbn [List.filter] in *. rewrite IH. unfold has_total.
  destruct (Out.total_interactions y =? t) eqn:Ey;
    destruct (Out.total_interactions x =? t) eqn:Ex; try reflexivity.
  apply Z.eqb_eq in Ey, Ex. lia.
Qed.

Lemma sort_desc_stable (t : Z) (l : list Out.row) :
  List.filter (has_total t) (sort_desc l) = List.filter (has_total t) l.
Proof.
  induction l as [|x r IH]; [reflexivity|].
  cbn [sort_desc]. rewrite insert_desc_stable.
  cbn [List.filter]. now rewrite IH.
Qed.

Lemma results_filter (isoformat : datetime -> string) (n : Z) (d : contacts) :
  results isoformat n d =
  map (result_of isoformat) (List.filter (fun item => n <=? total (snd item)) d).
Proof.
  induction d as [|item r IH]; simpl; [reflexivity|].
  destruct (n <=? total (snd item)); simpl; now rewrite IH.
Qed.

Lemma result_of_is_row (isoformat : datetime -> string)
    (item : string * contact) :
  Wording.is_row_of isoformat item (result_of isoformat item).
Proof.
  destruct item as [k c]. unfold Wording.is_row_of, Wording.interactions_of.
  cbn [result_of fst snd Out.email Out.name Out.sent_count Out.received_count
       Out.total_interactions Out.first_seen Out.last_seen Out.domain].
  repeat split. unfold any_domain.
  destruct (elements (domains c)) as [|x l] eqn:E.
  - left. split; [now apply elements_empty_inv, leibniz_equiv in E|reflexivity].
  - right. apply elem_of_elements. rewrite E. now left.
Qed.

(** Putting one more row in its place among ranked rows: the entries
    behind the rows are the old ones and the new one, and among entries
    of one total the new one comes first. *)
Lemma insert_desc_ranked (isoformat : datetime -> string)
    (x : string * contact) (items : contacts) (rows : list Out.row) :
  Forall2 (Wording.is_row_of isoformat) items rows ->
  exists items',
    Forall2 (Wording.is_row_of isoformat) items'
            (insert_desc (result_of isoformat x) rows) /\
    Permutation items' (x :: items) /\
    forall t, List.filter (fun i => Wording.interactions_of i =? t) items'
              = List.filter (fun i => Wording.interactions_of i =? t) (x :: items).
Proof.
  pose proof (result_of_is_row isoformat x) as Hx.
  induction 1 as [|y ry items rows Hy Hrest IH]; cbn [insert_desc].
  - exists [x]. split; [constructor; [exact Hx|constructor]|].
    split; [reflexivity|intros t; reflexivity].
  - assert (Out.total_interactions (result_of isoformat x)
            = Wording.interactions_of x) as Hxt by apply Hx.
    assert (Out.total_interactions ry = Wording.interactions_of y) as Hyt
        by apply Hy.
    destruct (_ <? _) eqn:E.
    + destruct IH as (items' & H2 & Hp & Hf).
      exists (y :: items'). split; [now constructor|]. split.
      * rewrite Hp. apply perm_swap.
      * intros t. cbn [List.filter] in *. rewrite Hf.
        apply Z.ltb_lt in E. rewrite Hxt, Hyt in E.
        destruct (Wording.interactions_of y =? t) eqn:Ey;
          destruct (Wording.interactions_of x =? t) eqn:Ex; try reflexivity.
        apply Z.eqb_eq in Ey, Ex. lia.
    + exists (x :: y :: items).
      split; [constructor; [exact Hx|now constructor]|].
      split; [reflexivity|intros t; reflexivity].
Qed.

Lemma sort_desc_ranked (isoformat : datetime -> string) (l : contacts) :
  exists items',
    Forall2 (Wording.is_row_of isoformat) items'
            (sort_desc (map (result_of isoformat) l)) /\
    Permutation items' l /\
    forall t, List.filter (fun i => Wording.interactions_of i =? t) items'
              = List.filter (fun i => Wording.interactions_of i =? t) l.
Proof.
  induction l as [|x r (items0 & H2 & Hp & Hf)]; cbn [map sort_desc].
  - exists []. split; [constructor|]. split; [reflexivity|intros t; reflexivity].
  - destruct (insert_desc_ranked isoformat x items0 _ H2) as (items' & H2' & Hp' & Hf').
    exists items'. split; [exact H2'|]. split.
    + rewrite Hp'. now constructor.
    + intros t. rewrite Hf'. cbn [List.filter]. now rewrite Hf.
Qed.

Lemma ranked_entries_sorted (isoformat : datetime -> string)
    (items : contacts) (rows : list Out.row) :
  Forall2 (Wording.is_row_of isoformat) items rows ->
  StronglySorted by_total rows ->
  StronglySorted
    (fun a b => Wording.interactions_of b <= Wording.interactions_of a) items.
Proof.
  induction 1 as [|y ry items rows Hy Hrest IH]; intros Hs; [constructor|].
  apply StronglySorted_inv in Hs as [Hs Hall].
  constructor; [now apply IH|].
  assert (Out.total_interactions ry = Wording.interactions_of y) as Hyt
      by apply Hy.
  clear IH Hs. induction Hrest as [|z rz items rows Hz _ IHr]; [constructor|].
  apply Forall_cons in Hall as [Hrz Hall].
  constructor; [|now apply IHr].
  unfold by_total in Hrz.
  assert (Out.total_interactions rz = Wording.interactions_of z) as Hzt
      by apply Hz.
  lia.
Qed.

(** C3. For every contacts dict and every threshold, [get_contacts]
    returns one row for each entry whose sent and received counts add up
    to the threshold or more, and for no other: the rows are, one for
    one and in their order, the records of a list of entries that is a
    rearrangement of exactly those entries; each row has the key of its
    entry as email, the counts of its entry and their sum as total; the
    entries come largest sum first; and entries of equal sum come in
    the order in which the dict iterates over them. *)
Theorem get_contacts_ranked (isoformat : datetime -> string) (n : Z)
    (d : contacts) :
  let included :=
    List.filter (fun item => n <=? sent_count (snd item) + received_count (snd item)) d in
  exists ranked : contacts,
    Forall2 (Wording.is_row_of isoformat) ranked (get_contacts isoformat n d) /\
    Permutation ranked included /\
    StronglySorted
      (fun a b => sent_count (snd b) + received_count (snd b)
                  <= sent_count (snd a) + received_count (snd a)) ranked /\
    forall t,
      List.filter (fun item => sent_count (snd item) + received_count (snd item) =? t)
                  ranked
      = List.filter (fun item => sent_count (snd item) + received_count (snd item) =? t)
                    included.
Proof.
  cbv zeta. unfold get_contacts. rewrite results_filter. fold total.
  destruct (sort_desc_ranked isoformat
              (List.filter (fun item => n <=? total (snd item)) d))
    as (ranked & H2 & Hp & Hf).
  exists ranked. split; [exact H2|]. split; [exact Hp|]. split.
  - apply (ranked_entries_sorted isoformat ranked _ H2), sort_desc_sorted.
  - exact Hf.
Qed.

(** The ranking on a dict of three entries, two of them with the same
    total: the larger total first, then the two others as the dict has
    them. *)
Example get_contacts_on_three :
  let entry s r :=
    {| name := ""; email := ""; sent_count := s; received_count := r;
       first_seen := None; last_seen := None; domains := ∅ |} in
  map (fun r => (Out.email r, Out.total_interactions r))
      (get_contacts Sample.isoformat 2
         [("a@x.org", entry 1 1); ("b@x.org", entry 0 1);
          ("c@x.org", entry 3 2); ("d@x.org", entry 2 0)])
  = [("c@x.org", 5); ("a@x.org", 2); ("d@x.org", 2)].
Proof. reflexivity. Qed.

(** *** Address parsing *)

Lemma re_split_nonempty (s : string) : re_split s <> [].
Proof.
  destruct s as [|c r]; simpl; [discriminate|].
  destruct (_ && _); [discriminate|].
  destruct (re_split r); discriminate.
Qed.

Lemma join_comma_push (c : ascii) (p : string) (ps : list string) :
  join_comma (String c p :: ps) = String c (join_comma (p :: ps)).
Proof. destruct ps; reflexivity. Qed.

(** The split loses nothing: the parts joined by commas are the text. *)
Lemma re_split_join (s : string) : join_comma (re_split s) = s.
Proof.
  induction s as [|c r IH]; [reflexivity|].
  cbn [re_split].
  pose proof (re_split_nonempty r) as Hne.
  destruct (re_split r) as [|p ps] eqn:Er; [congruence|].
  destruct (Ascii.eqb c "," && lookahead r) eqn:E.
  - apply andb_true_iff in E as [Ec _]. apply Ascii.eqb_eq in Ec. subst c.
    change (join_comma ("" :: p :: ps)) with (String "," (join_comma (p :: ps))).
    now rewrite IH.
  - now rewrite join_comma_push, IH.
Qed.

Lemma re_split_cuts (pos : nat) (s : string) :
  length (re_split s) = S (length (cuts pos s)).
Proof.
  revert pos. induction s as [|c r IH]; intros pos; [reflexivity|].
  cbn [re_split cuts].
  destruct (Ascii.eqb c "," && lookahead r); simpl.
  - now rewrite (IH (S pos)).
  - pose proof (re_split_nonempty r) as Hne. rewrite <- (IH (S pos)).
    destruct (re_split r); [congruence|reflexivity].
Qed.

Lemma lookahead_from_parity (inq : bool) (rest : string) :
  lookahead_from inq rest = xorb inq (Nat.even (Wording.count_quotes rest)).
Proof.
  revert inq. induction rest as [|c r IH]; intros inq.
  - simpl. now destruct inq.
  - cbn [lookahead_from Wording.count_quotes].
    destruct (Ascii.eqb c Str.dquote).
    + rewrite IH, Nat.even_succ, <- Nat.negb_even.
      now destruct inq, (Nat.even _).
    + apply IH.
Qed.

(** With an even number of double quotes in the text, the commas cut at
    are those read outside quotes. *)
Lemma cuts_outside_when_balanced (s : string) :
  Nat.even (Wording.count_quotes s) = true ->
  cuts 0 s = Wording.commas_outside false 0 s.
Proof.
  change true with (negb false) at 1.
  generalize false as inq. generalize 0%nat as pos.
  induction s as [|c r IH]; intros pos inq Hev; [reflexivity|].
  cbn [cuts Wording.commas_outside Wording.count_quotes] in *.
  destruct (Ascii.eqb_spec c Str.dquote) as [->|Hc].
  - change (Ascii.eqb Str.dquote ",") with false. cbn [andb].
    apply IH. rewrite Nat.even_succ, <- Nat.negb_even in Hev.
    now destruct inq, (Nat.even _).
  - unfold lookahead. rewrite lookahead_from_parity, Hev. cbn [xorb].
    rewrite (IH (S pos) inq Hev). reflexivity.
Qed.

Section Addresses.

Variable decode_header : string -> list header_part.
Variable bytes_decode : list Byte.byte -> string -> option string.
Variable decode_utf8 : list Byte.byte -> string.
Variable parseaddr : string -> string * string.

Lemma parse_part_address (part nm addr : string) :
  parse_part parseaddr part = Some (nm, addr) ->
  Str.lower addr = addr /\ Str.strip addr = addr /\ Str.mem "@" addr = true.
Proof.
  unfold parse_part. destruct (parseaddr _) as [n a].
  destruct (Str.truthy a && Str.mem "@" a) eqn:E; [|discriminate].
  intros [= _ <-]. apply andb_true_iff in E as [_ Hat].
  split; [|split].
  - apply StrFacts.lower_strip_by, StrFacts.lower_idem.
  - apply StrFacts.strip_by_idem.
  - unfold Str.strip. rewrite StrFacts.mem_strip_by by reflexivity.
    now rewrite StrFacts.mem_at_lower.
Qed.

(** Every pair the parser returns has an address in lower case, with
    no blank at either end, holding an at sign; and there are no more
    pairs than parts. *)
Lemma addresses_normalised (header_value : string) :
  let pairs :=
    _parse_email_addresses decode_header bytes_decode decode_utf8
      parseaddr header_value in
  Forall (fun p => Str.lower (snd p) = snd p /\ Str.strip (snd p) = snd p /\
                   Str.mem "@" (snd p) = true) pairs.
Proof.
  unfold _parse_email_addresses.
  destruct (Str.truthy header_value); simpl; [|constructor].
  induction (re_split _) as [|part r IH]; simpl; [constructor|].
  destruct (parse_part parseaddr part) as [[nm addr]|] eqn:E; [|exact IH].
  constructor; [|exact IH]. now apply parse_part_address in E.
Qed.

End Addresses.

(** The header of the specification splits in two. *)
Example doe_jane_two_pairs :
  let header := Str.q "Doe, Jane" ++ " <jane@x.com>, bob@y.com" in
  re_split header = [Str.q "Doe, Jane" ++ " <jane@x.com>"; " bob@y.com"] /\
  _parse_email_addresses Sample.decode_header Sample.bytes_decode
    Sample.decode_utf8 Sample.parseaddr header
  = [("Doe, Jane", "jane@x.com"); ("", "bob@y.com")].
Proof. split; reflexivity. Qed.

(** C5, on a header with an odd number of double quotes. One more
    double quote after the list of the specification, and the split
    cuts at the comma inside the quoted name (position 4) and not at
    the comma between the two addresses (position 24). *)
Theorem split_inside_quoted_name :
  let header :=
    Str.q "Doe, Jane" ++ " <jane@x.com>, " ++ String Str.dquote "bob" in
  re_split header
  = [String Str.dquote "Doe";
     " Jane" ++ String Str.dquote " <jane@x.com>, " ++ String Str.dquote "bob"] /\
  cuts 0 header = [4%nat] /\
  Wording.commas_outside false 0 header = [24%nat].
Proof. repeat split; reflexivity. Qed.

End MailFacts.

(** ** The LinkedIn parser *)

Module LinkedInFacts.
Import LinkedIn.

Lemma remove_both (s : string) :
  Str.remove "," (Str.remove " " s) = Wording.without_spaces_and_commas s.
Proof.
  induction s as [|c r IH]; [reflexivity|].
  cbn [Str.remove Wording.without_spaces_and_commas].
  destruct (Ascii.eqb c " ") eqn:Es; cbn [orb]; [exact IH|].
  cbn [Str.remove]. destruct (Ascii.eqb c ","); now rewrite IH.
Qed.

Lemma domain_of_label (company : string) :
  domain_of company = Wording.domain_label company.
Proof.
  unfold domain_of, Wording.domain_label.
  destruct company as [|c r]; [reflexivity|].
  cbn [Str.truthy]. now rewrite remove_both.
Qed.

Section Rows.

Variable strptime : string -> string -> option datetime.
Variable isoformat : datetime -> string.

Lemma first_format_first_match (fmts : list string) (s fmt : string)
    (d : datetime) :
  Wording.first_match strptime fmts s fmt d ->
  first_format strptime s fmts = Some d.
Proof.
  intros (before & after & -> & Hbefore & Hfmt).
  induction Hbefore as [|f r Hf Hr IH]; simpl.
  - now rewrite Hfmt.
  - now rewrite Hf.
Qed.

Lemma first_format_no_match (fmts : list string) (s : string) :
  Wording.no_match strptime fmts s -> first_format strptime s fmts = None.
Proof.
  induction 1 as [|f r Hf Hr IH]; simpl; [reflexivity|].
  now rewrite Hf.
Qed.

(** The date text of a contact, from the trimmed cell: the rendering
    of the first pattern that matches, the cell itself when none
    does. *)
Lemma connected_on_of_spec (s : string) :
  Wording.no_match strptime connected_formats "" ->
  (forall fmt d,
      Wording.first_match strptime connected_formats s fmt d ->
      connected_on_of strptime isoformat s = isoformat d) /\
  (Wording.no_match strptime connected_formats s ->
   connected_on_of strptime isoformat s = s).
Proof.
  intros Hempty. unfold connected_on_of, conn_date_of. split.
  - intros fmt d Hm. destruct s as [|a s'].
    + apply first_format_first_match in Hm.
      rewrite (first_format_no_match _ _ Hempty) in Hm. discriminate.
    + cbn [Str.truthy]. now rewrite (first_format_first_match _ _ _ _ Hm).
  - intros Hno. destruct (Str.truthy s); [|reflexivity].
    now rewrite (first_format_no_match _ _ Hno).
Qed.

(** What a row that is appended went through. *)
Lemma process_row_appended (r : row) (c : contact) :
  process_row strptime isoformat r = Appended c ->
  exists first_name last_name email company position connected_on url,
    strip (get r "First Name" (get r "first_name" (Some ""))) = Some first_name /\
    strip (get r "Last Name" (get r "last_name" (Some ""))) = Some last_name /\
    strip (get r "Company" (get r "company" (Some ""))) = Some company /\
    strip (get r "Connected On" (get r "connected_on" (Some "")))
      = Some connected_on /\
    build strptime isoformat first_name last_name email company position
      connected_on url = Appended c.
Proof.
  unfold process_row.
  destruct (strip (get r "First Name" _)) as [fn|]; [|discriminate].
  destruct (strip (get r "Last Name" _)) as [ln|]; [|discriminate].
  destruct (strip (get r "Email Address" _)) as [em|]; [|discriminate].
  destruct (strip (get r "Company" _)) as [co|]; [|discriminate].
  destruct (strip (get r "Position" _)) as [po|]; [|discriminate].
  destruct (strip (get r "Connected On" _)) as [cn|]; [|discriminate].
  destruct (strip (get r "URL" _)) as [url|]; [|discriminate].
  intros H. exists fn, ln, em, co, po, cn, url. auto.
Qed.

Lemma build_appended (first_name last_name email company position
                      connected_on url : string) (c : contact) :
  build strptime isoformat first_name last_name email company position
    connected_on url = Appended c ->
  Str.truthy first_name || Str.truthy last_name = true /\
  LinkedIn.first_name c = first_name /\ LinkedIn.last_name c = last_name /\
  LinkedIn.company c = company /\
  LinkedIn.domain c = domain_of company /\
  LinkedIn.connected_on c = connected_on_of strptime isoformat connected_on.
Proof.
  unfold build.
  destruct (Str.truthy first_name), (Str.truthy last_name); simpl;
    try discriminate; intros [= <-]; simpl; repeat split.
Qed.

Lemma strip_inv (v : option string) (s : string) :
  strip v = Some s -> exists raw, v = Some raw /\ s = Str.strip raw.
Proof. destruct v as [raw|]; [|discriminate]. intros [= <-]. eauto. Qed.

(** The rows are handled one by one in their order, as long as none
    raises. *)
Lemma parse_rows_in_order (rows : list row) :
  Forall (fun r => process_row strptime isoformat r <> AttributeError) rows ->
  parse_rows strptime isoformat rows =
  Some (omap (fun r => match process_row strptime isoformat r with
                       | Appended c => Some c
                       | _ => None
                       end) rows).
Proof.
  induction 1 as [|r rest Hr Hrest IH]; simpl; [reflexivity|].
  destruct (process_row strptime isoformat r); [congruence|exact IH|].
  now rewrite IH.
Qed.

(** With every cell present, a row is skipped exactly when its two
    names are empty once trimmed. *)
Lemma skipped_iff_no_name (first_name last_name email company position
                           connected_on url : string) :
  build strptime isoformat first_name last_name email company position
    connected_on url = Skipped
  <-> first_name = "" /\ last_name = "".
Proof.
  unfold build.
  destruct first_name, last_name; simpl; split;
    try discriminate; try tauto; intros [? ?]; discriminate.
Qed.

Lemma get_complete (r : row) (k : string) (default : string) (rest : list string) :
  Wording.complete r ->
  Wording.field r rest = default ->
  get r k (Some default) = Some (Wording.field r (k :: rest)).
Proof.
  intros Hc Hd. unfold get. cbn [Wording.field].
  destruct (r !! k) as [[v|]|] eqn:E; [reflexivity| |now rewrite Hd].
  now destruct (Hc k).
Qed.

(** With every cell present, a row goes through [build] with each field
    read under the first column name the row has, trimmed. *)
Lemma process_row_complete (r : row) :
  Wording.complete r ->
  let cell names := Str.strip (Wording.field r names) in
  process_row strptime isoformat r =
  build strptime isoformat
    (cell ["First Name"; "first_name"]) (cell ["Last Name"; "last_name"])
    (cell ["Email Address"; "Email"; "email"]) (cell ["Company"; "company"])
    (cell ["Position"; "position"]) (cell ["Connected On"; "connected_on"])
    (cell ["URL"; "Profile URL"; "url"]).
Proof.
  intros Hc cell. unfold process_row, cell.
  repeat (rewrite (get_complete r _ _ [] Hc eq_refl)
          || rewrite (get_complete r _ _ [_] Hc eq_refl)
          || rewrite (get_complete r _ _ [_; _] Hc eq_refl)).
  reflexivity.
Qed.

Lemma process_row_complete_total (r : row) :
  Wording.complete r -> process_row strptime isoformat r <> AttributeError.
Proof.
  intros Hc. rewrite (process_row_complete r Hc). unfold build.
  destruct (_ && _); discriminate.
Qed.

(** With every cell present nothing raises and no date is dropped: a
    row without a name is skipped, and a row with one is appended with,
    as [connected_on], the ISO rendering of the first pattern that
    matches the trimmed cell, or the trimmed cell itself when none
    matches. The library is taken to reject the empty text. *)
Lemma complete_row_keeps_date (r : row) :
  Wording.complete r ->
  Wording.no_match strptime connected_formats "" ->
  let cell names := Str.strip (Wording.field r names) in
  let s := cell ["Connected On"; "connected_on"] in
  (cell ["First Name"; "first_name"] = "" /\ cell ["Last Name"; "last_name"] = "" ->
   process_row strptime isoformat r = Skipped) /\
  (cell ["First Name"; "first_name"] <> "" \/ cell ["Last Name"; "last_name"] <> "" ->
   exists c,
     process_row strptime isoformat r = Appended c /\
     (forall fmt d,
         Wording.first_match strptime connected_formats s fmt d ->
         connected_on c = isoformat d) /\
     (Wording.no_match strptime connected_formats s -> connected_on c = s)).
Proof.
  intros Hc Hempty cell s. subst cell s. cbv beta.
  rewrite (process_row_complete r Hc). cbv zeta beta.
  unfold build. split.
  - intros [H1 H2]. now rewrite H1, H2.
  - intros Hname.
    destruct (negb (Str.truthy (Str.strip (Wording.field r ["First Name"; "first_name"])))
              && negb (Str.truthy (Str.strip (Wording.field r ["Last Name"; "last_name"]))))
      eqn:E.
    + exfalso. apply andb_true_iff in E as [E1 E2].
      apply negb_true_iff, StrFacts.truthy_false in E1.
      apply negb_true_iff, StrFacts.truthy_false in E2. tauto.
    + eexists. split; [reflexivity|]. cbn [connected_on].
      now apply connected_on_of_spec.
Qed.

(** For a row that yields a contact, [connected_on] is the ISO
    rendering of the first pattern of the list that matches the
    trimmed cell, and the trimmed cell itself when no pattern
    matches. The library is taken to reject the empty text under each
    pattern. *)
Theorem connected_on_normalised (r : row) (c : contact) :
  Wording.no_match strptime connected_formats "" ->
  process_row strptime isoformat r = Appended c ->
  exists raw,
    get r "Connected On" (get r "connected_on" (Some "")) = Some raw /\
    (forall fmt d,
        Wording.first_match strptime connected_formats (Str.strip raw) fmt d ->
        connected_on c = isoformat d) /\
    (Wording.no_match strptime connected_formats (Str.strip raw) ->
     connected_on c = Str.strip raw).
Proof.
  intros Hempty Hrow.
  apply process_row_appended in Hrow
    as (fn & ln & em & co & po & cn & url & _ & _ & _ & Hcn & Hb).
  apply strip_inv in Hcn as (raw & Hraw & ->).
  apply build_appended in Hb as (_ & _ & _ & _ & _ & ->).
  exists raw. split; [exact Hraw|].
  now apply connected_on_of_spec.
Qed.

(** C9. For a row that yields a contact, the domain label is the
    trimmed company name in lower case, without its spaces and
    commas, cut to its first twenty characters. *)
Theorem domain_label_derivation (r : row) (c : contact) :
  process_row strptime isoformat r = Appended c ->
  exists raw,
    get r "Company" (get r "company" (Some "")) = Some raw /\
    company c = Str.strip raw /\
    domain c = Wording.domain_label (Str.strip raw) /\
    (String.length (domain c) <= 20)%nat.
Proof.
  intros Hrow.
  apply process_row_appended in Hrow
    as (fn & ln & em & co & po & cn & url & _ & _ & Hco & _ & Hb).
  apply strip_inv in Hco as (raw & Hraw & ->).
  apply build_appended in Hb as (_ & _ & _ & Hc & Hd & _).
  exists raw. rewrite Hc, Hd, domain_of_label.
  repeat split; [exact Hraw|]. apply StrFacts.take_length.
Qed.

End Rows.

Lemma connected_on_normalised_witness :
  exists c,
    process_row Sample.strptime Sample.isoformat Sample.acme_row = Appended c /\
    connected_on c = "2024-01-15T00:00:00".
Proof.
  destruct (process_row Sample.strptime Sample.isoformat Sample.acme_row)
    as [| |c] eqn:E; [discriminate E|discriminate E|].
  exists c. split; [reflexivity|].
  assert (Wording.no_match Sample.strptime connected_formats "") as Hempty
      by (repeat constructor).
  destruct (connected_on_normalised Sample.strptime Sample.isoformat
              Sample.acme_row c Hempty E) as (raw & Hraw & Hfirst & _).
  injection Hraw as <-.
  apply (Hfirst "%d %b %Y" (mk_datetime Sample.jan_15_2024 None)).
  exists [], ["%b %d, %Y"; "%Y-%m-%d"; "%m/%d/%Y"].
  repeat split; constructor.
Defined.

Lemma domain_label_derivation_witness :
  exists c,
    process_row Sample.strptime Sample.isoformat Sample.acme_row = Appended c /\
    company c = "Acme, Inc." /\ domain c = "acmeinc.".
Proof.
  destruct (process_row Sample.strptime Sample.isoformat Sample.acme_row)
    as [| |c] eqn:E; [discriminate E|discriminate E|].
  exists c. split; [reflexivity|].
  destruct (domain_label_derivation Sample.strptime Sample.isoformat
              Sample.acme_row c E) as (raw & Hraw & Hc & Hd & _).
  injection Hraw as <-. split; [exact Hc|exact Hd].
Defined.

(** C7, on a line shorter than the header. The reader fills the cell
    of the missing column with [None]; resolving that field raises, so
    the row is neither skipped nor appended, and the rows appended
    before it are lost with the call. *)
Theorem short_row_raises (strptime : string -> string -> option datetime)
    (isoformat : datetime -> string) :
  let short : row :=
    {[ "First Name" := Some "Jane"; "Last Name" := Some "Doe";
       "Company" := None ]} in
  let full : row :=
    {[ "First Name" := Some "Ann"; "Last Name" := Some "Lee";
       "Company" := Some "Acme" ]} in
  process_row strptime isoformat short = AttributeError /\
  (exists c, process_row strptime isoformat full = Appended c) /\
  parse_rows strptime isoformat [full; short] = None.
Proof.
  intros short full.
  assert (process_row strptime isoformat short = AttributeError) as Hs
      by reflexivity.
  split; [exact Hs|]. split; [eexists; reflexivity|].
  cbn [parse_rows]. rewrite Hs.
  destruct (process_row strptime isoformat full); reflexivity.
Qed.

(** C8, on a line without its date cell. The reader fills the cell of
    the Connected On column with [None]; reading the field raises before
    any date is normalised, and the call returns nothing. With the cell
    present and empty the same row is kept, with an empty date. *)
Theorem missing_date_cell_raises (strptime : string -> string -> option datetime)
    (isoformat : datetime -> string) :
  let short : row :=
    {[ "First Name" := Some "Jane"; "Last Name" := Some "Doe";
       "Connected On" := None ]} in
  let blank : row :=
    {[ "First Name" := Some "Jane"; "Last Name" := Some "Doe";
       "Connected On" := Some "" ]} in
  process_row strptime isoformat short = AttributeError /\
  parse_rows strptime isoformat [short] = None /\
  exists c,
    process_row strptime isoformat blank = Appended c /\ connected_on c = "".
Proof.
  intros short blank.
  assert (process_row strptime isoformat short = AttributeError) as Hs
      by reflexivity.
  split; [exact Hs|]. split.
  - cbn [parse_rows]. now rewrite Hs.
  - eexists. split; reflexivity.
Qed.

End LinkedInFacts.

(** * Further properties *)

(** ** The aggregator, call by call *)

Module MailExtra.
Import Mail.

Lemma keys_store (k : string) (c : contact) (d : contacts) :
  keys (store k c d) =
  match lookup k d with
  | Some _ => keys d
  | None => (keys d ++ [k])%list
  end.
Proof.
  induction d as [|[k' c'] r IH]; [reflexivity|].
  cbn [store lookup]. destruct (String.eqb k k'); [reflexivity|].
  unfold keys in *. cbn [map fst]. rewrite IH.
  destruct (lookup k r); reflexivity.
Qed.

Lemma state_of_cases (owner nm addr : string) (date : option datetime)
    (is_sent : bool) (d : contacts) :
  let k := Str.lower addr in
  let d' := state_of (_update_contact owner nm addr date is_sent d) in
  (k = Str.lower owner /\ d' = d) \/
  (k <> Str.lower owner /\
   d' = store k (fst (updated nm k date is_sent (getitem k d))) d).
Proof.
  intros k d'. subst k d'.
  destruct (String.eqb_spec (Str.lower addr) (Str.lower owner)) as [He|Hne].
  - left. split; [exact He|].
    now rewrite MailFacts.state_of_update_owner.
  - right. split; [exact Hne|]. now apply MailFacts.state_of_update.
Qed.

Lemma feed_entry_ok (owner : string) (obs : list observation) (d : contacts) :
  Forall entry_ok d -> Forall entry_ok (feed owner obs d).
Proof.
  apply (MailFacts.feed_invariant owner (Forall entry_ok)).
  intros. now apply MailFacts.entry_ok_step.
Qed.

(** X1. A call of [_update_contact] reads and writes the entry of its own
    address only: what the dict holds under any other key is the same
    before and after, whether the call returns or raises. *)
Theorem update_touches_one_key (owner nm addr : string)
    (date : option datetime) (is_sent : bool) (d : contacts) (k : string) :
  k <> Str.lower addr ->
  lookup k (state_of (_update_contact owner nm addr date is_sent d)) = lookup k d.
Proof.
  intros Hk.
  destruct (state_of_cases owner nm addr date is_sent d) as [[_ ->]|[_ ->]];
    [reflexivity|].
  apply MailFacts.lookup_store_ne. congruence.
Qed.

Lemma update_touches_one_key_witness :
  let d := state_of (_update_contact "me@x.com" "Bob" "bob@y.com" None true []) in
  lookup "bob@y.com"
    (state_of (_update_contact "me@x.com" "Jo" "JO@x.org" None false d))
  = lookup "bob@y.com" d.
Proof.
  intros d.
  apply (update_touches_one_key "me@x.com" "Jo" "JO@x.org" None false d "bob@y.com").
  discriminate.
Defined.

(** X2. A call never reorders or removes entries: the keys stay as they
    were when the address is the owner's or already has an entry, and
    otherwise the lowercased address is added after all of them. *)
Theorem update_keeps_order (owner nm addr : string) (date : option datetime)
    (is_sent : bool) (d : contacts) :
  let k := Str.lower addr in
  keys (state_of (_update_contact owner nm addr date is_sent d)) =
  if String.eqb k (Str.lower owner) then keys d
  else match lookup k d with
       | Some _ => keys d
       | None => (keys d ++ [k])%list
       end.
Proof.
  intros k. subst k.
  destruct (state_of_cases owner nm addr date is_sent d) as [[He ->]|[Hne ->]].
  - apply String.eqb_eq in He. now rewrite He.
  - apply String.eqb_neq in Hne. rewrite Hne. apply keys_store.
Qed.

Lemma keys_step_NoDup (owner nm addr : string) (date : option datetime)
    (is_sent : bool) (d : contacts) :
  NoDup (keys d) ->
  NoDup (keys (state_of (_update_contact owner nm addr date is_sent d))).
Proof.
  intros Hd.
  destruct (state_of_cases owner nm addr date is_sent d) as [[_ ->]|[_ ->]];
    [exact Hd|].
  rewrite keys_store.
  destruct (lookup (Str.lower addr) d) eqn:E; [exact Hd|].
  apply MailFacts.lookup_None_keys in E.
  apply NoDup_app. split; [exact Hd|]. split.
  - intros x Hx Hin. apply list_elem_of_singleton in Hin. subst x.
    apply E. now apply list_elem_of_In.
  - apply NoDup_singleton.
Qed.

(** X3. However the observations come, the dict never holds two entries
    under the same key. *)
Theorem keys_never_repeat (owner : string) (obs : list observation) :
  NoDup (keys (feed owner obs [])).
Proof.
  apply (MailFacts.feed_invariant owner (fun d => NoDup (keys d)));
    [|constructor].
  intros. now apply keys_step_NoDup.
Qed.

Lemma updated_domains (nm k : string) (date : option datetime) (is_sent : bool)
    (c0 : contact) :
  let r := updated nm k date is_sent c0 in
  domains (fst r) =
  if snd r then domains c0 else {[ Str.after_last "@" k ]} ∪ domains c0.
Proof.
  unfold updated.
  pose proof (MailFacts.update_dates_others date
                (update_counts is_sent (update_name nm (set_email k c0))))
    as (_ & _ & _ & _ & Hd).
  destruct (update_dates _ _) as [c4 []]; simpl in *; rewrite Hd;
    unfold update_counts, update_name;
    destruct is_sent, (better_name nm _); reflexivity.
Qed.

Lemma one_domain_step (owner nm addr : string) (date : option datetime)
    (is_sent : bool) (d : contacts) :
  Forall Measure.one_domain d ->
  Forall Measure.one_domain (state_of (_update_contact owner nm addr date is_sent d)).
Proof.
  intros Hd.
  destruct (state_of_cases owner nm addr date is_sent d) as [[_ ->]|[_ ->]];
    [exact Hd|].
  apply MailFacts.Forall_store; [exact Hd|].
  unfold Measure.one_domain. cbn [fst snd]. rewrite updated_domains.
  unfold getitem.
  destruct (lookup (Str.lower addr) d) as [c0|] eqn:E.
  - apply (MailFacts.lookup_Forall Measure.one_domain _ _ d Hd) in E.
    unfold Measure.one_domain in E. cbn [fst snd] in E. rewrite E.
    destruct (snd _); [reflexivity|]. apply union_idemp_L.
  - destruct (snd (updated _ _ _ _ default_contact)) eqn:Er.
    + exfalso. unfold updated in Er.
      pose proof (MailFacts.update_dates_raised date
                    (update_counts is_sent
                       (update_name nm (set_email (Str.lower addr) default_contact))))
        as Hraised.
      destruct (update_dates _ _) as [c4 []]; [|discriminate Er].
      specialize (Hraised eq_refl).
      unfold update_counts, update_name in Hraised.
      destruct is_sent, (better_name nm _); simpl in Hraised; tauto.
    + simpl. apply union_empty_r_L.
Qed.

(** X4. After any stream of observations, the set of domains of every
    entry holds exactly one domain: what follows the last at sign of the
    entry's key. *)
Theorem domains_is_one_domain (owner : string) (obs : list observation) :
  Forall (fun item => domains (snd item) = {[ Str.after_last "@" (fst item) ]})
         (feed owner obs []).
Proof.
  apply (MailFacts.feed_invariant owner (Forall Measure.one_domain));
    [|constructor].
  intros. now apply one_domain_step.
Qed.

Ltac date_cases :=
  repeat match goal with
    | H : context [if ?b then _ else _] |- _ => destruct b eqn:?; simpl in H
    | |- context [if ?b then _ else _] => destruct b eqn:?; simpl
    | H : (_ <? _) = true |- _ => apply Z.ltb_lt in H
    | H : (_ <? _) = false |- _ => apply Z.ltb_ge in H
    end.

Lemma update_dates_bracket (dt : datetime) (c c' : contact) :
  update_dates (Some dt) c = (c', false) ->
  exists f l,
    first_seen c' = Some f /\ last_seen c' = Some l /\
    dt_le f dt = Some true /\ dt_le dt l = Some true.
Proof.
  destruct dt as [wd [od|]];
    destruct c as [n e s r [[wf [o1|]]|] [[wl [o2|]]|] ds];
    unfold update_dates, dt_gt, dt_le, dt_lt; simpl; intros H;
    date_cases; simplify_eq; simpl;
    eexists _, _; (split; [reflexivity|]); (split; [reflexivity|]);
    simpl; split; f_equal; apply negb_true_iff, Z.ltb_ge; lia.
Qed.

(** X5. When a call with a date returns, the date lies between the
    first and the last seen it leaves under the key: both are set, both
    compare with the date, the first is not after it and the last not
    before it. *)
Theorem date_within_seen (owner nm addr : string) (dt : datetime)
    (is_sent : bool) (d d' : contacts) :
  Str.lower addr <> Str.lower owner ->
  _update_contact owner nm addr (Some dt) is_sent d = Done d' ->
  exists f l,
    first_seen_of (Str.lower addr) d' = Some f /\
    last_seen_of (Str.lower addr) d' = Some l /\
    dt_le f dt = Some true /\ dt_le dt l = Some true.
Proof.
  intros Hne. unfold _update_contact.
  apply String.eqb_neq in Hne. rewrite Hne.
  destruct (update_dates (Some dt) _) as [c4 raised] eqn:E.
  destruct raised; [discriminate|]. intros [= <-].
  unfold first_seen_of, last_seen_of. rewrite MailFacts.getitem_store_eq.
  apply update_dates_bracket in E. exact E.
Qed.

Lemma date_within_seen_witness :
  let seen :=
    [("jo@x.org",
      {| name := "Jo"; email := "jo@x.org"; sent_count := 0;
         received_count := 1; first_seen := Some (mk_datetime 5 None);
         last_seen := Some (mk_datetime 9 None); domains := {[ "x.org" ]} |})] in
  exists d' f l,
    _update_contact "me@x.com" "Jo" "jo@x.org" (Some (mk_datetime 7 None)) false
      seen = Done d' /\
    first_seen_of "jo@x.org" d' = Some f /\ last_seen_of "jo@x.org" d' = Some l /\
    dt_le f (mk_datetime 7 None) = Some true /\
    dt_le (mk_datetime 7 None) l = Some true.
Proof.
  intros seen.
  destruct (_update_contact "me@x.com" "Jo" "jo@x.org"
              (Some (mk_datetime 7 None)) false seen) as [d'|d'] eqn:E;
    [|discriminate E].
  assert (Str.lower "jo@x.org" <> Str.lower "me@x.com") as Hne by discriminate.
  destruct (date_within_seen "me@x.com" "Jo" "jo@x.org" (mk_datetime 7 None)
              false seen d' Hne E) as (f & l & H1 & H2 & H3 & H4).
  exists d', f, l. auto.
Defined.

Lemma update_dates_raises_iff (date : option datetime) (c : contact) :
  dates_ok c ->
  snd (update_dates date c) = true <->
  exists dt f, date = Some dt /\ first_seen c = Some f /\
               Measure.is_aware dt <> Measure.is_aware f.
Proof.
  destruct date as [[wd [od|]]|];
    destruct c as [n e s r [[wf [o1|]]|] [[wl [o2|]]|] ds];
    unfold dates_ok, update_dates, dt_gt, dt_le, dt_lt, Measure.is_aware;
    simpl; intros Hok; try tauto; try discriminate;
    (split;
     [ intros H; date_cases; try discriminate; eexists _, _; eauto
     | intros (dt & f & Hd & Hf & Hne); simplify_eq; simpl in *;
       date_cases; congruence ]).
Qed.

Lemma updated_raises_iff (nm k : string) (date : option datetime)
    (is_sent : bool) (c0 : contact) :
  dates_ok c0 ->
  snd (updated nm k date is_sent c0) = true <->
  exists dt f, date = Some dt /\ first_seen c0 = Some f /\
               Measure.is_aware dt <> Measure.is_aware f.
Proof.
  intros Hok.
  set (c3 := update_counts is_sent (update_name nm (set_email k c0))).
  pose proof (MailFacts.dates_ok_before nm k is_sent c0) as [Hf Hl].
  fold c3 in Hf, Hl.
  assert (dates_ok c3) as Hok3 by (unfold dates_ok; now rewrite Hf, Hl).
  assert (snd (updated nm k date is_sent c0) = snd (update_dates date c3)) as ->.
  { unfold updated. fold c3. now destruct (update_dates date c3) as [c4 []]. }
  rewrite (update_dates_raises_iff date c3 Hok3), Hf. reflexivity.
Qed.

(** X6. On a dict built by the aggregator, a call raises exactly when it
    is for another address than the owner's, carries a date, the entry of
    the address has a first seen, and one of the two has a UTC offset
    while the other has none. *)
Theorem update_raises_iff (owner : string) (obs : list observation)
    (nm addr : string) (date : option datetime) (is_sent : bool) :
  let d := feed owner obs [] in
  (exists d', _update_contact owner nm addr date is_sent d = Raised d') <->
  Str.lower addr <> Str.lower owner /\
  exists dt f,
    date = Some dt /\ first_seen_of (Str.lower addr) d = Some f /\
    Measure.is_aware dt <> Measure.is_aware f.
Proof.
  intros d. rewrite MailFacts.update_contact_eq. cbv zeta.
  assert (dates_ok (getitem (Str.lower addr) d)) as Hok.
  { unfold getitem. destruct (lookup _ d) as [c|] eqn:E; [|exact I].
    apply (MailFacts.lookup_Forall entry_ok _ _ d) in E.
    - now destruct E as (_ & _ & _ & _ & H).
    - apply feed_entry_ok. constructor. }
  pose proof (updated_raises_iff nm (Str.lower addr) date is_sent _ Hok) as Hiff.
  unfold first_seen_of.
  destruct (String.eqb_spec (Str.lower addr) (Str.lower owner)) as [He|Hne].
  - split; [intros [d' H]; discriminate|intros [H _]; contradiction].
  - destruct (snd (updated _ _ _ _ _)) eqn:Er.
    + split; [intros _; split; [exact Hne|now apply Hiff]|eauto].
    + split; [intros [d' H]; discriminate|].
      intros [_ H]. apply Hiff in H. discriminate.
Qed.

Lemma interactions_store (k : string) (c : contact) (d : contacts) :
  Measure.interactions (store k c d) =
  Measure.interactions d + (sent_count c + received_count c)
  - (sent_count (getitem k d) + received_count (getitem k d)).
Proof.
  unfold getitem.
  induction d as [|[k' c'] r IH]; cbn [store lookup Measure.interactions].
  - simpl. lia.
  - destruct (String.eqb k k'); cbn [Measure.interactions]; [lia|].
    rewrite IH. lia.
Qed.

Lemma interactions_step (owner nm addr : string) (date : option datetime)
    (is_sent : bool) (d : contacts) :
  Measure.interactions (state_of (_update_contact owner nm addr date is_sent d)) =
  Measure.interactions d +
  (if String.eqb (Str.lower addr) (Str.lower owner) then 0 else 1).
Proof.
  destruct (state_of_cases owner nm addr date is_sent d) as [[He ->]|[Hne ->]].
  - apply String.eqb_eq in He. rewrite He. lia.
  - apply String.eqb_neq in Hne. rewrite Hne, interactions_store.
    pose proof (MailFacts.updated_counts nm (Str.lower addr) date is_sent
                  (getitem (Str.lower addr) d)) as [Hs Hr].
    simpl in Hs, Hr. rewrite Hs, Hr. destruct is_sent; lia.
Qed.

(** X7. Over any stream of observations the interactions counted in the
    whole dict, sent and received together, grow by the number of
    observations whose address is not the owner's: each such call counts
    one, also when it raises, and a call for the owner's address counts
    none. *)
Theorem every_foreign_observation_counts_once (owner : string)
    (obs : list observation) (d : contacts) :
  Measure.interactions (feed owner obs d) =
  Measure.interactions d + Z.of_nat (length (Measure.foreign owner obs)).
Proof.
  revert d. unfold feed, Measure.foreign.
  induction obs as [|o r IH]; intros d; cbn [fold_left List.filter]; [simpl; lia|].
  rewrite IH, interactions_step.
  destruct (String.eqb _ _); cbn [negb length]; lia.
Qed.

Lemma name_length_step (owner nm addr : string) (date : option datetime)
    (is_sent : bool) (d : contacts) (k : string) :
  let d' := state_of (_update_contact owner nm addr date is_sent d) in
  (String.length (name_of k d) <= String.length (name_of k d'))%nat /\
  (Str.lower addr <> Str.lower owner ->
   (String.length nm <= String.length (name_of (Str.lower addr) d'))%nat).
Proof.
  intros d'. subst d'. unfold name_of.
  destruct (state_of_cases owner nm addr date is_sent d) as [[He ->]|[Hne ->]];
    [split; [lia|contradiction]|].
  assert (forall c0,
             let n' := name (fst (updated nm (Str.lower addr) date is_sent c0)) in
             (String.length (name c0) <= String.length n')%nat /\
             (String.length nm <= String.length n')%nat) as Hname.
  { intros c0. cbv zeta. rewrite MailFacts.updated_name. unfold better_name.
    destruct nm as [|a nm']; [simpl; lia|].
    destruct (name c0) as [|b stored]; [simpl; lia|].
    cbn [Str.truthy negb andb orb].
    destruct (_ <? _)%nat eqn:E; [apply Nat.ltb_lt in E|apply Nat.ltb_ge in E]; lia. }
  split.
  - destruct (String.eqb_spec (Str.lower addr) k) as [<-|Hk].
    + rewrite MailFacts.getitem_store_eq. apply Hname.
    + rewrite MailFacts.getitem_store_ne by assumption. lia.
  - intros _. rewrite MailFacts.getitem_store_eq. apply Hname.
Qed.

Lemma name_length_feed (owner : string) (obs : list observation) (d : contacts)
    (k : string) :
  (String.length (name_of k d) <= String.length (name_of k (feed owner obs d)))%nat.
Proof.
  revert d. unfold feed.
  induction obs as [|o r IH]; intros d; cbn [fold_left]; [lia|].
  etrans; [|apply IH].
  apply (name_length_step owner (obs_name o) (obs_email o) (obs_date o)
           (obs_is_sent o) d k).
Qed.

(** X8. The name kept for a contact is as long as the longest name
    observed with its address: whatever dict the stream starts from, no
    observation of another address than the owner's carries a longer
    name than the one stored under its key at the end. *)
Theorem stored_name_is_a_longest (owner : string) (obs : list observation)
    (d : contacts) :
  Forall (fun o =>
            (String.length (obs_name o)
             <= String.length (name_of (Str.lower (obs_email o)) (feed owner obs d)))%nat)
         (Measure.foreign owner obs).
Proof.
  revert d. induction obs as [|o r IH]; intros d; [constructor|].
  unfold Measure.foreign in *. cbn [List.filter].
  change (feed owner (o :: r) d)
    with (feed owner r (state_of (_update_contact owner (obs_name o) (obs_email o)
                                    (obs_date o) (obs_is_sent o) d))).
  destruct (String.eqb_spec (Str.lower (obs_email o)) (Str.lower owner))
    as [He|Hne]; cbn [negb]; [apply IH|].
  constructor; [|apply IH].
  etrans; [|apply name_length_feed].
  now apply (name_length_step owner (obs_name o) (obs_email o) (obs_date o)
               (obs_is_sent o) d (Str.lower (obs_email o))).
Qed.

End MailExtra.

(** ** The scan *)

Module ScanExtra.
Import Mail.

Section Lift.

Variable owner : string.
Variable decode_header : string -> list header_part.
Variable bytes_decode : list Byte.byte -> string -> option string.
Variable decode_utf8 : list Byte.byte -> string.
Variable parseaddr : string -> string * string.
Variable strptime : string -> string -> option datetime.

Local Abbreviation process :=
  (process_message owner decode_header bytes_decode decode_utf8 parseaddr
     strptime).
Local Abbreviation scan :=
  (scan_folder owner decode_header bytes_decode decode_utf8 parseaddr strptime).

(** What every call keeps, the scan keeps. *)
Variable P : contacts -> Prop.
Hypothesis P_step :
  forall nm addr date is_sent d,
    P d -> P (state_of (_update_contact owner nm addr date is_sent d)).

Lemma update_all_keeps (date : option datetime) (is_sent : bool)
    (pairs : list (string * string)) (d : contacts) :
  P d -> P (state_of (update_all owner date is_sent pairs d)).
Proof.
  revert d. induction pairs as [|[nm addr] r IH]; intros d Hd; [exact Hd|].
  cbn [update_all].
  pose proof (P_step nm addr date is_sent d Hd) as Hs.
  destruct (_update_contact owner nm addr date is_sent d) as [d1|d1];
    cbn [bind state_of] in *; [now apply IH|exact Hs].
Qed.

Lemma update_headers_keeps (date : option datetime) (msg : message)
    (headers : list (message -> string)) (d : contacts) :
  P d ->
  P (state_of (update_headers owner decode_header bytes_decode decode_utf8
                 parseaddr date msg headers d)).
Proof.
  revert d. induction headers as [|h r IH]; intros d Hd; [exact Hd|].
  cbn [update_headers].
  pose proof (update_all_keeps date true
                (_parse_email_addresses decode_header bytes_decode decode_utf8
                   parseaddr (h msg)) d Hd) as Hs.
  destruct (update_all owner date true _ d) as [d1|d1];
    cbn [bind state_of] in *; [now apply IH|exact Hs].
Qed.

Lemma process_message_keeps (is_sent : bool) (msg : message) (d : contacts) :
  P d -> P (state_of (process is_sent msg d)).
Proof.
  intros Hd. unfold process_message.
  pose proof (update_all_keeps (_parse_date strptime (get_Date msg)) false
                (_parse_email_addresses decode_header bytes_decode decode_utf8
                   parseaddr (get_From msg)) d Hd) as Hs.
  destruct (update_all owner _ false _ d) as [d1|d1];
    cbn [bind state_of] in *; [|exact Hs].
  now apply update_headers_keeps.
Qed.

Lemma scan_messages_keeps (is_sent : bool) (ids : list fetched) (d : contacts)
    (n : Z) :
  P d ->
  P (fst (scan_messages owner decode_header bytes_decode decode_utf8 parseaddr
            strptime is_sent ids d n)).
Proof.
  revert d n. induction ids as [|[| |msg] r IH]; intros d n Hd;
    cbn [scan_messages]; [exact Hd|now apply IH|now apply IH|].
  pose proof (process_message_keeps is_sent msg d Hd) as Hs.
  destruct (process is_sent msg d) as [d1|d1]; cbn [state_of] in Hs;
    now apply IH.
Qed.

Lemma scan_folder_keeps (folder : string) (limit : option Z)
    (view : folder_view) (d : contacts) :
  P d -> P (fst (scan folder limit view d)).
Proof.
  intros Hd. unfold scan_folder.
  destruct (select_ok view); [|exact Hd].
  destruct (search_ok view); [|exact Hd].
  now apply scan_messages_keeps.
Qed.

End Lift.

Lemma keys_Forall (Q : string -> Prop) (d : contacts) :
  Forall Q (keys d) <-> Forall (fun item => Q (fst item)) d.
Proof.
  unfold keys. induction d as [|item r IH]; cbn [map]; split;
    intros H; try constructor; inversion H; subst; try tauto.
Qed.

Lemma tidy_step (owner nm addr : string) (date : option datetime)
    (is_sent : bool) (d : contacts) :
  Measure.tidy owner d ->
  Measure.tidy owner (state_of (_update_contact owner nm addr date is_sent d)).
Proof.
  intros (Hok & Hown & Hnd & Hdom). repeat split.
  - now apply MailFacts.entry_ok_step.
  - apply keys_Forall. apply MailFacts.no_owner_step.
    now apply keys_Forall in Hown.
  - now apply MailExtra.keys_step_NoDup.
  - now apply MailExtra.one_domain_step.
Qed.

Lemma tidy_empty (owner : string) : Measure.tidy owner [].
Proof. repeat split; constructor. Qed.

Section Scans.

Variable owner : string.
Variable decode_header : string -> list header_part.
Variable bytes_decode : list Byte.byte -> string -> option string.
Variable decode_utf8 : list Byte.byte -> string.
Variable parseaddr : string -> string * string.
Variable strptime : string -> string -> option datetime.

Local Abbreviation scan :=
  (scan_folder owner decode_header bytes_decode decode_utf8 parseaddr strptime).

(** X9. A folder scan keeps the dict as the aggregator keeps it: if
    before the scan every entry is well formed, no key is the owner's
    address, no key occurs twice and every entry has the one domain of
    its key, the same holds after it, whatever the folder holds, also
    when fetches fail and messages raise. *)
Theorem scan_folder_keeps_tidy (folder : string) (limit : option Z)
    (view : folder_view) (d : contacts) :
  Measure.tidy owner d -> Measure.tidy owner (fst (scan folder limit view d)).
Proof.
  apply (scan_folder_keeps owner decode_header bytes_decode decode_utf8
           parseaddr strptime (Measure.tidy owner)).
  intros. now apply tidy_step.
Qed.

(** X10. A folder scan only adds to the dict: the keys it finds stay, in
    their order, at the front of the keys it leaves. *)
Theorem scan_folder_extends_keys (folder : string) (limit : option Z)
    (view : folder_view) (d : contacts) :
  exists new, keys (fst (scan folder limit view d)) = (keys d ++ new)%list.
Proof.
  apply (scan_folder_keeps owner decode_header bytes_decode decode_utf8
           parseaddr strptime
           (fun d' => exists new, keys d' = (keys d ++ new)%list)).
  - intros nm addr date is_sent d' [new Hnew].
    destruct (MailExtra.state_of_cases owner nm addr date is_sent d')
      as [[_ ->]|[_ ->]]; [now exists new|].
    rewrite MailExtra.keys_store, Hnew.
    destruct (lookup _ d'); [now exists new|].
    exists (new ++ [Str.lower addr])%list. now rewrite app_assoc.
  - exists []. now rewrite app_nil_r.
Qed.

Lemma scan_messages_count (is_sent : bool) (ids : list fetched) (d : contacts)
    (n : Z) :
  let m := snd (scan_messages owner decode_header bytes_decode decode_utf8
                  parseaddr strptime is_sent ids d n) in
  n <= m <= n + Z.of_nat (length ids).
Proof.
  revert d n. induction ids as [|[| |msg] r IH]; intros d n;
    cbn [scan_messages length]; [simpl; lia| | |].
  - specialize (IH d n). cbv zeta in IH. lia.
  - specialize (IH d n). cbv zeta in IH. lia.
  - destruct (process_message _ _ _ _ _ _ is_sent msg d) as [d1|d1].
    + specialize (IH d1 (n + 1)). cbv zeta in IH. lia.
    + specialize (IH d1 n). cbv zeta in IH. lia.
Qed.

Lemma most_recent_length (A : Type) (limit : option Z) (ids : list A) :
  (length (most_recent limit ids) <= length ids)%nat /\
  match limit with
  | Some n => 0 < n -> Z.of_nat (length (most_recent limit ids)) <= n
  | None => True
  end.
Proof.
  unfold most_recent. destruct limit as [n|]; [|split; [lia|exact I]].
  destruct (n =? 0) eqn:E0; [apply Z.eqb_eq in E0; split; lia|].
  destruct (0 <? n) eqn:E1; rewrite length_drop; split; lia.
Qed.

(** X11. The number a folder scan returns is never negative, never more
    than the messages the folder holds and, under a positive limit,
    never more than the limit; each message adds at most one. *)
Theorem scan_folder_count_bounds (folder : string) (limit : option Z)
    (view : folder_view) (d : contacts) :
  let scanned := snd (scan folder limit view d) in
  0 <= scanned <= Z.of_nat (length (message_ids view)) /\
  match limit with
  | Some n => 0 < n -> scanned <= n
  | None => True
  end.
Proof.
  cbv zeta. unfold scan_folder.
  pose proof (most_recent_length fetched limit (message_ids view)) as [Hlen Hlim].
  destruct (select_ok view); cbn [negb].
  2:{ cbn [snd]. split; [lia|]. destruct limit; [lia|exact I]. }
  destruct (search_ok view); cbn [negb].
  2:{ cbn [snd]. split; [lia|]. destruct limit; [lia|exact I]. }
  pose proof (scan_messages_count (Str.contains "sent" (Str.lower folder))
                (most_recent limit (message_ids view)) d 0) as Hc.
  cbv zeta in Hc. split; [lia|].
  destruct limit as [n|]; [|exact I]. intros Hn. specialize (Hlim Hn). lia.
Qed.

End Scans.

Lemma scan_folder_keeps_tidy_witness :
  Measure.tidy "me@x.com"
    (fst (scan_folder "me@x.com" Sample.decode_header Sample.bytes_decode
            Sample.decode_utf8 Sample.parseaddr Sample.strptime "INBOX" (Some 5)
            {| select_ok := true; search_ok := true;
               message_ids :=
                 [ FetchNotOK;
                   Fetched {| get_Date := "Mon, 01 Jan 2024 10:00:00 +0000";
                              get_From := "Jo Ann <Jo@X.org>";
                              get_To := "me@x.com, bob@y.com";
                              get_Cc := "" |} ] |}
            [])).
Proof.
  apply (scan_folder_keeps_tidy "me@x.com" Sample.decode_header
           Sample.bytes_decode Sample.decode_utf8 Sample.parseaddr
           Sample.strptime).
  repeat split; constructor.
Defined.

(** X12. The limit keeps the most recent identifiers: what is scanned is
    an end piece of the list of identifiers; no limit and the limit 0
    keep the whole list; a positive limit keeps its last [n] (all when
    there are fewer); a negative limit drops the first [-n]. *)
Theorem most_recent_is_a_suffix (A : Type) (limit : option Z) (ids : list A) :
  (exists older, ids = (older ++ most_recent limit ids)%list) /\
  length (most_recent limit ids) =
  match limit with
  | None => length ids
  | Some n =>
      if n =? 0 then length ids
      else if 0 <? n then Nat.min (Z.to_nat n) (length ids)
      else (length ids - Z.to_nat (- n))%nat
  end.
Proof.
  unfold most_recent. destruct limit as [n|].
  2:{ split; [now exists []|reflexivity]. }
  destruct (n =? 0); [split; [now exists []|reflexivity]|].
  destruct (0 <? n); (split; [eexists; symmetry; apply take_drop|]);
    rewrite length_drop; lia.
Qed.

End ScanExtra.

(** ** All folders, and the server *)

Module SessionExtra.
Import Mail Session.

Section AllFolders.

Variable owner : string.
Variable decode_header : string -> list header_part.
Variable bytes_decode : list Byte.byte -> string -> option string.
Variable decode_utf8 : list Byte.byte -> string.
Variable parseaddr : string -> string * string.
Variable strptime : string -> string -> option datetime.
Variable session : string -> folder_view.

Local Abbreviation scan :=
  (scan_folder owner decode_header bytes_decode decode_utf8 parseaddr strptime).
Local Abbreviation loop :=
  (scan_folders owner decode_header bytes_decode decode_utf8 parseaddr strptime
     session).

(** One folder after the other, each once. *)
Local Abbreviation in_turn limit folders d :=
  (fold_left (fun d folder => fst (scan folder limit (session folder) d))
             folders d).

Lemma scan_folders_distinct (limit : option Z) (folders : list string)
    (scanned : gset string) (d : contacts) :
  NoDup (map Str.lower folders) ->
  Forall (fun folder => Str.lower folder ∉ scanned) folders ->
  loop limit folders scanned d = in_turn limit folders d.
Proof.
  revert scanned d.
  induction folders as [|folder rest IH]; intros scanned d Hnd Hfresh;
    [reflexivity|].
  cbn [scan_folders fold_left map] in *.
  apply NoDup_cons in Hnd as [Hhead Hnd].
  apply Forall_cons in Hfresh as [Hf Hfresh].
  rewrite bool_decide_eq_false_2 by exact Hf.
  apply IH; [exact Hnd|].
  rewrite Forall_forall in *. intros f Hin.
  apply not_elem_of_union. split; [|now apply Hfresh].
  apply not_elem_of_singleton. intros Heq. apply Hhead.
  rewrite <- Heq. apply list_elem_of_fmap. now exists f.
Qed.

(** X13. [scan_all] scans the six folders of its list one after the
    other, each exactly once and in the order of the list, with the same
    limit; the test on the names already scanned never skips one. *)
Theorem scan_all_scans_each_folder_once (limit : option Z) (d : contacts) :
  scan_all owner decode_header bytes_decode decode_utf8 parseaddr strptime
    session limit d =
  fold_left (fun d folder => fst (scan folder limit (session folder) d))
    [ "INBOX"; "[Gmail]/Sent Mail"; "[Gmail]/All Mail";
      "Sent"; "Sent Items"; "Sent Messages" ] d.
Proof.
  unfold scan_all.
  rewrite scan_folders_distinct; [reflexivity| |].
  - apply (bool_decide_unpack _). vm_compute. exact I.
  - unfold priority_folders. repeat constructor; apply not_elem_of_empty.
Qed.

(** X14. Whatever the mail session answers, after [scan_all] on a dict
    as the aggregator keeps it (the empty one at first) the dict still
    has well-formed entries, none under the owner's address, no key
    twice, and one domain per entry. *)
Theorem scan_all_keeps_tidy (limit : option Z) (d : contacts) :
  Measure.tidy owner d ->
  Measure.tidy owner
    (scan_all owner decode_header bytes_decode decode_utf8 parseaddr strptime
       session limit d).
Proof.
  unfold scan_all. generalize (∅ : gset string). generalize priority_folders.
  intros folders. revert d.
  induction folders as [|folder rest IH]; intros d scanned Hd; [exact Hd|].
  cbn [scan_folders]. destruct (bool_decide _); [now apply IH|].
  apply IH.
  apply (ScanExtra.scan_folder_keeps owner decode_header bytes_decode
           decode_utf8 parseaddr strptime (Measure.tidy owner)); [|exact Hd].
  intros. now apply ScanExtra.tidy_step.
Qed.

End AllFolders.

Lemma scan_all_keeps_tidy_witness :
  Measure.tidy "me@x.com"
    (scan_all "me@x.com" Sample.decode_header Sample.bytes_decode
       Sample.decode_utf8 Sample.parseaddr Sample.strptime
       (fun folder =>
          {| select_ok := String.eqb folder "INBOX"; search_ok := true;
             message_ids :=
               [ Fetched {| get_Date := ""; get_From := "jo@x.org";
                            get_To := "me@x.com"; get_Cc := "" |} ] |})
       None []).
Proof.
  apply (scan_all_keeps_tidy "me@x.com" Sample.decode_header
           Sample.bytes_decode Sample.decode_utf8 Sample.parseaddr
           Sample.strptime).
  repeat split; constructor.
Defined.

Lemma append_cons (x : ascii) (r s : string) :
  String.append (String x r) s = String x (String.append r s).
Proof. reflexivity. Qed.

Lemma mem_append_hit (c : ascii) (r dom : string) :
  Str.mem c (String.append r (String c dom)) = true.
Proof.
  induction r as [|y r' IH].
  - change (Str.mem c (String c dom) = true). cbn [Str.mem].
    now rewrite Ascii.eqb_refl.
  - rewrite append_cons. cbn [Str.mem]. rewrite IH. apply orb_true_r.
Qed.

Lemma after_last_app (c : ascii) (local dom : string) :
  Str.mem c dom = false ->
  Str.after_last c (String.append local (String c dom)) = dom.
Proof.
  intros Hdom. induction local as [|x r IH].
  - change (Str.after_last c (String c dom) = dom). cbn [Str.after_last].
    now rewrite Hdom, Ascii.eqb_refl.
  - rewrite append_cons. cbn [Str.after_last].
    now rewrite mem_append_hit.
Qed.

(** X15. The server found for an address depends on nothing but the
    text after its last at sign, without regard to case: with a domain
    that holds no at sign, any local part gives the server of the table
    for the lowercased domain, and [imap.] followed by the lowercased
    domain when the table has none. *)
Theorem server_from_domain_only (local dom : string) :
  Str.mem "@" dom = false ->
  _detect_imap_server (local ++ String "@" dom) =
  match IMAP_SERVERS !! Str.lower dom with
  | Some server => server
  | None => "imap." ++ Str.lower dom
  end.
Proof.
  intros Hdom. unfold _detect_imap_server.
  now rewrite (after_last_app "@" local dom Hdom).
Qed.

Lemma server_from_domain_only_witness :
  _detect_imap_server "Some.One@GoogleMail.com" = "imap.gmail.com" /\
  _detect_imap_server "a@b@Example.ORG" = "imap.example.org".
Proof.
  split.
  - apply (server_from_domain_only "Some.One" "GoogleMail.com"). reflexivity.
  - apply (server_from_domain_only "a@b" "Example.ORG"). reflexivity.
Defined.


End SessionExtra.

(** ** The ranked list *)

Module RankExtra.
Import Mail.

Lemma insert_desc_head (x : Out.row) (l : list Out.row) :
  Forall (fun y => Out.total_interactions y <= Out.total_interactions x) l ->
  insert_desc x l = x :: l.
Proof.
  intros [|y r Hy _]; [reflexivity|]. cbn [insert_desc].
  now rewrite (proj2 (Z.ltb_ge _ _) Hy).
Qed.

Lemma Forall_filter_rows (P : Out.row -> Prop) (p : Out.row -> bool)
    (l : list Out.row) :
  Forall P l -> Forall P (List.filter p l).
Proof.
  induction 1 as [|z l Hz Hl IH]; cbn [List.filter]; [constructor|].
  destruct (p z); [now constructor|exact IH].
Qed.

Lemma filter_insert_desc (p : Out.row -> bool) (x : Out.row) (l : list Out.row) :
  StronglySorted by_total l ->
  List.filter p (insert_desc x l) =
  if p x then insert_desc x (List.filter p l) else List.filter p l.
Proof.
  induction 1 as [|y r Hr IH Hy].
  - cbn [insert_desc List.filter]. now destruct (p x).
  - cbn [insert_desc].
    destruct (Out.total_interactions x <? Out.total_interactions y) eqn:E.
    + cbn [List.filter]. rewrite IH.
      destruct (p y), (p x); cbn [insert_desc]; now rewrite ?E.
    + change (List.filter p (x :: y :: r))
        with (if p x then x :: List.filter p (y :: r) else List.filter p (y :: r)).
      destruct (p x); [|reflexivity].
      symmetry. apply insert_desc_head, Forall_filter_rows.
      apply Z.ltb_ge in E. constructor; [exact E|].
      rewrite Forall_forall in *. intros z Hz.
      specialize (Hy z Hz). unfold by_total in Hy. lia.
Qed.

Lemma filter_sort_desc (p : Out.row -> bool) (l : list Out.row) :
  List.filter p (sort_desc l) = sort_desc (List.filter p l).
Proof.
  induction l as [|x r IH]; [reflexivity|].
  cbn [sort_desc List.filter].
  rewrite filter_insert_desc by apply MailFacts.sort_desc_sorted.
  rewrite IH. now destruct (p x).
Qed.

Section Ranked.

Variable isoformat : datetime -> string.

Lemma results_raise (n n' : Z) (d : contacts) :
  n <= n' ->
  results isoformat n' d =
  List.filter (fun r => n' <=? Out.total_interactions r) (results isoformat n d).
Proof.
  intros Hn. induction d as [|[k c] r IH]; [reflexivity|].
  cbn [results snd]. destruct (n' <=? total c) eqn:E'.
  - apply Z.leb_le in E'.
    rewrite (proj2 (Z.leb_le n (total c))) by lia.
    cbn [List.filter result_of Out.total_interactions].
    rewrite (proj2 (Z.leb_le n' (total c))) by lia. now rewrite IH.
  - destruct (n <=? total c); [|exact IH].
    cbn [List.filter result_of Out.total_interactions]. now rewrite E'.
Qed.

(** X16. Raising the threshold only filters the ranked list: the list for
    a larger threshold is the list for a smaller one without the rows
    under the larger threshold, the others in the same order. *)
Theorem higher_threshold_filters (n n' : Z) (d : contacts) :
  n <= n' ->
  get_contacts isoformat n' d =
  List.filter (fun r => n' <=? Out.total_interactions r)
              (get_contacts isoformat n d).
Proof.
  intros Hn. unfold get_contacts.
  now rewrite filter_sort_desc, <- results_raise.
Qed.

Lemma results_all (n : Z) (d : contacts) :
  n <= 1 -> Forall entry_ok d ->
  results isoformat n d = map (result_of isoformat) d.
Proof.
  intros Hn. induction 1 as [|[k c] r Hc Hr IH]; [reflexivity|].
  cbn [results snd map]. destruct Hc as (_ & _ & Hsum & _).
  unfold total. rewrite (proj2 (Z.leb_le _ _)) by lia. now rewrite IH.
Qed.

(** X17. With a threshold of one or less (one is the default) nothing
    the aggregator recorded is left out: the ranked list holds one row
    for every entry of the dict. *)
Theorem default_threshold_keeps_all (n : Z) (d : contacts) :
  n <= 1 -> Forall entry_ok d ->
  Permutation (get_contacts isoformat n d) (map (result_of isoformat) d) /\
  length (get_contacts isoformat n d) = length d.
Proof.
  intros Hn Hd. unfold get_contacts. rewrite (results_all n d Hn Hd).
  pose proof (MailFacts.sort_desc_perm (map (result_of isoformat) d)) as Hp.
  split; [exact Hp|].
  rewrite (Permutation_length Hp). apply length_map.
Qed.

Lemma results_emails (n : Z) (d : contacts) :
  sublist (map Out.email (results isoformat n d)) (keys d).
Proof.
  induction d as [|[k c] r IH]; [constructor|].
  cbn [results snd keys map fst].
  destruct (n <=? total c); cbn [map result_of Out.email];
    [now apply sublist_skip|now apply sublist_cons].
Qed.

(** X18. On a dict without a repeated key, no two rows of the ranked
    list have the same email. *)
Theorem ranked_emails_distinct (n : Z) (d : contacts) :
  NoDup (keys d) -> NoDup (map Out.email (get_contacts isoformat n d)).
Proof.
  intros Hd. unfold get_contacts.
  rewrite (Permutation_map Out.email (MailFacts.sort_desc_perm _)).
  exact (sublist_NoDup _ _ Hd (results_emails n d)).
Qed.

(** X19. On a dict whose entries have the one domain of their key, the
    domain of every row of the ranked list is what follows the last at
    sign of the row's email. *)
Theorem ranked_domain_of_email (n : Z) (d : contacts) :
  Forall Measure.one_domain d ->
  Forall (fun r => Out.domain r = Str.after_last "@" (Out.email r))
         (get_contacts isoformat n d).
Proof.
  intros Hd. unfold get_contacts.
  rewrite (MailFacts.sort_desc_perm _).
  induction Hd as [|[k c] r Hc Hr IH]; [constructor|].
  cbn [results snd]. destruct (n <=? total c); [|exact IH].
  constructor; [|exact IH].
  cbn [result_of Out.domain Out.email]. unfold any_domain.
  unfold Measure.one_domain in Hc. cbn [fst snd] in Hc.
  now rewrite Hc, elements_singleton.
Qed.

End Ranked.

Lemma two_contacts_entry_ok : Forall entry_ok SampleDict.two_contacts.
Proof.
  repeat constructor; try discriminate; simpl; try lia;
    apply (non_empty_inhabited_L _), elem_of_singleton; reflexivity.
Qed.

Lemma higher_threshold_filters_witness :
  get_contacts Sample.isoformat 2 SampleDict.two_contacts =
  List.filter (fun r => 2 <=? Out.total_interactions r)
              (get_contacts Sample.isoformat 1 SampleDict.two_contacts).
Proof.
  apply (higher_threshold_filters Sample.isoformat 1 2 SampleDict.two_contacts).
  lia.
Defined.

Lemma default_threshold_keeps_all_witness :
  Permutation (get_contacts Sample.isoformat 1 SampleDict.two_contacts)
              (map (result_of Sample.isoformat) SampleDict.two_contacts) /\
  length (get_contacts Sample.isoformat 1 SampleDict.two_contacts) = 2%nat.
Proof.
  apply (default_threshold_keeps_all Sample.isoformat 1 SampleDict.two_contacts).
  - lia.
  - apply two_contacts_entry_ok.
Defined.

Lemma ranked_emails_distinct_witness :
  NoDup (map Out.email (get_contacts Sample.isoformat 1 SampleDict.two_contacts)).
Proof.
  apply (ranked_emails_distinct Sample.isoformat 1 SampleDict.two_contacts).
  apply (bool_decide_unpack _). vm_compute. exact I.
Defined.

Lemma ranked_domain_of_email_witness :
  Forall (fun r => Out.domain r = Str.after_last "@" (Out.email r))
         (get_contacts Sample.isoformat 1 SampleDict.two_contacts).
Proof.
  apply (ranked_domain_of_email Sample.isoformat 1 SampleDict.two_contacts).
  repeat constructor.
Defined.

End RankExtra.

(** ** Headers and dates *)

Module ParseExtra.
Import Mail.

Lemma cuts_by_parity (inq : bool) (pos : nat) (s : string) :
  Nat.even (Wording.count_quotes s) = negb inq ->
  cuts pos s = Wording.commas_outside inq pos s.
Proof.
  revert inq pos. induction s as [|c r IH]; intros inq pos Hev; [reflexivity|].
  cbn [cuts Wording.commas_outside Wording.count_quotes] in *.
  destruct (Ascii.eqb_spec c Str.dquote) as [->|Hc].
  - change (Ascii.eqb Str.dquote ",") with false. cbn [andb].
    apply IH. rewrite Nat.even_succ, <- Nat.negb_even in Hev.
    now destruct inq, (Nat.even _).
  - unfold lookahead. rewrite MailFacts.lookahead_from_parity, Hev. cbn [xorb].
    now rewrite (IH inq (S pos) Hev).
Qed.

(** X20. The commas the split cuts at are those a reader starting
    outside quotes finds outside a quoted substring when the text holds
    an even number of double quotes, and those it finds inside one when
    the number is odd. *)
Theorem cuts_follow_quote_parity (s : string) :
  cuts 0 s = Wording.commas_outside (Nat.odd (Wording.count_quotes s)) 0 s.
Proof.
  apply cuts_by_parity. rewrite <- Nat.negb_even. now destruct (Nat.even _).
Qed.

Lemma cuts_at_commas (pos : nat) (s : string) :
  (length (cuts pos s) <= Measure.count_char "," s)%nat.
Proof.
  revert pos. induction s as [|c r IH]; intros pos; [reflexivity|].
  cbn [cuts Measure.count_char]. specialize (IH (S pos)).
  destruct (Ascii.eqb c ","); cbn [andb];
    [destruct (lookahead r); cbn [length]; lia|exact IH].
Qed.

Lemma split_then_join_bound (s : string) :
  (1 <= length (re_split s) <= S (Measure.count_char "," s))%nat.
Proof.
  rewrite (MailFacts.re_split_cuts 0 s).
  pose proof (cuts_at_commas 0 s). lia.
Qed.

(** X21. The split loses and adds nothing: its parts joined with commas
    give the text back, there is always at least one part, and there is
    at most one part more than the text has commas. *)
Theorem split_then_join (s : string) :
  join_comma (re_split s) = s /\
  (1 <= length (re_split s) <= S (Measure.count_char "," s))%nat.
Proof.
  split; [apply MailFacts.re_split_join|apply split_then_join_bound].
Qed.

Section Pairs.

Variable decode_header : string -> list header_part.
Variable bytes_decode : list Byte.byte -> string -> option string.
Variable decode_utf8 : list Byte.byte -> string.
Variable parseaddr : string -> string * string.

Lemma parse_part_name (part nm addr : string) :
  parse_part parseaddr part = Some (nm, addr) ->
  Str.strip_char Str.squote nm = nm /\ addr <> "".
Proof.
  unfold parse_part. destruct (parseaddr _) as [n a].
  destruct (Str.truthy a && Str.mem "@" a) eqn:E; [|discriminate].
  intros [= <- <-]. split; [apply StrFacts.strip_by_idem|].
  apply andb_true_iff in E as [_ Hat]. intros Hempty.
  assert (Str.mem "@" (Str.strip (Str.lower a)) = true) as Hmem.
  { unfold Str.strip. rewrite StrFacts.mem_strip_by by reflexivity.
    now rewrite StrFacts.mem_at_lower. }
  rewrite Hempty in Hmem. discriminate.
Qed.

Lemma omap_length_le {A B : Type} (f : A -> option B) (l : list A) :
  (length (omap f l) <= length l)%nat.
Proof.
  induction l as [|x r IH]; [reflexivity|]. cbn [omap list_omap length].
  destruct (f x); cbn [length]; lia.
Qed.

(** X22. Whatever the library functions return, every pair the address
    parser gives has a non-empty address in lower case, without blanks
    at its ends, holding an at sign, and a name that neither starts nor
    ends with an apostrophe; and a header gives at most one pair more
    than its decoded text has commas. *)
Theorem parsed_pairs_are_normalised (header_value : string) :
  let pairs :=
    _parse_email_addresses decode_header bytes_decode decode_utf8 parseaddr
      header_value in
  let decoded :=
    _decode_header_value decode_header bytes_decode decode_utf8 header_value in
  Forall (fun p =>
            snd p <> "" /\ Str.lower (snd p) = snd p /\
            Str.strip (snd p) = snd p /\ Str.mem "@" (snd p) = true /\
            Str.strip_char Str.squote (fst p) = fst p) pairs /\
  (length pairs <= S (Measure.count_char "," decoded))%nat.
Proof.
  cbv zeta. unfold _parse_email_addresses.
  destruct (Str.truthy header_value); cbn [negb];
    [|split; [constructor|cbn [length]; lia]].
  split.
  - induction (re_split _) as [|part r IH]; cbn [omap list_omap]; [constructor|].
    destruct (parse_part parseaddr part) as [[nm addr]|] eqn:E; [|exact IH].
    constructor; [|exact IH]. cbn [fst snd].
    pose proof (MailFacts.parse_part_address parseaddr part nm addr E)
      as (Hl & Hs & Hat).
    pose proof (parse_part_name part nm addr E) as (Hn & Hne).
    auto.
  - etrans; [apply omap_length_le|].
    pose proof (split_then_join_bound
                  (_decode_header_value decode_header bytes_decode decode_utf8
                     header_value)). lia.
Qed.

End Pairs.

(** *** The date parser *)

Lemma append_nil (s : string) : String.append "" s = s.
Proof. reflexivity. Qed.

Lemma append_String (x : ascii) (r s : string) :
  String.append (String x r) s = String x (String.append r s).
Proof. reflexivity. Qed.

Lemma rstrip_empty_iff (p : ascii -> bool) (s : string) :
  Str.truthy (Str.rstrip p s) = negb (Str.all p s).
Proof.
  induction s as [|c r IH]; [reflexivity|]. cbn [Str.rstrip Str.all].
  rewrite IH, negb_involutive.
  destruct (p c), (Str.all p r); reflexivity.
Qed.

Lemma lstrip_all (p : ascii -> bool) (s : string) :
  Str.all p s = true -> Str.lstrip p s = "".
Proof.
  induction s as [|c r IH]; [reflexivity|]. cbn [Str.all Str.lstrip].
  intros H. apply andb_true_iff in H as [Hc Hr]. rewrite Hc. now apply IH.
Qed.

Lemma lstrip_rstrip_comm (p : ascii -> bool) (s : string) :
  Str.lstrip p (Str.rstrip p s) = Str.rstrip p (Str.lstrip p s).
Proof.
  induction s as [|c r IH]; [reflexivity|].
  cbn [Str.lstrip Str.rstrip]. destruct (p c) eqn:Hc; cbn [andb].
  - pose proof (rstrip_empty_iff p r) as Hr.
    destruct (Str.all p r) eqn:Hall; cbn [negb] in Hr; rewrite Hr; cbn [negb].
    + now rewrite (lstrip_all p r Hall).
    + cbn [Str.lstrip]. now rewrite Hc.
  - cbn [Str.lstrip Str.rstrip]. now rewrite Hc.
Qed.

Lemma strip_rstrip (s : string) :
  Str.strip (Str.rstrip Str.isspace s) = Str.strip s.
Proof.
  unfold Str.strip, Str.strip_by.
  now rewrite lstrip_rstrip_comm, StrFacts.rstrip_idem.
Qed.

(** A text that ends in a comment: blanks, an opening parenthesis, a
    body without closing parenthesis, the closing one. *)
Lemma lstrip_to_close (body : string) :
  Str.mem ")" body = false ->
  Str.lstrip (fun c => negb (Ascii.eqb c ")")) (String.append body ")") = ")".
Proof.
  induction body as [|c r IH]; [reflexivity|].
  rewrite append_String. cbn [Str.mem Str.lstrip].
  intros H. apply orb_false_iff in H as [Hc Hr]. rewrite Hc. cbn [negb].
  now apply IH.
Qed.

Lemma tz_comment_open (b : string) :
  tz_comment (String "(" b) =
  negb (Str.startswith ")" b) &&
  match Str.lstrip (fun c => negb (Ascii.eqb c ")")) b with
  | String ")" tl => Str.all Str.isspace tl
  | _ => false
  end.
Proof. reflexivity. Qed.

Lemma tz_comment_blank (c : ascii) (r : string) :
  Str.isspace c = true -> tz_comment (String c r) = tz_comment r.
Proof. intros H. unfold tz_comment. cbn [Str.lstrip]. now rewrite H. Qed.

Lemma tz_comment_other (c : ascii) (r : string) :
  Str.isspace c = false -> Ascii.eqb c "(" = false ->
  tz_comment (String c r) = false.
Proof.
  intros Hs Hc. unfold tz_comment. cbn [Str.lstrip]. rewrite Hs.
  destruct c as [[] [] [] [] [] [] [] []]; try reflexivity; discriminate.
Qed.

Lemma tz_comment_before (s body : string) :
  Str.mem "(" s = false -> body <> "" -> Str.mem ")" body = false ->
  tz_comment (String.append s (String " " (String "(" (String.append body ")"))))
  = Str.all Str.isspace s.
Proof.
  intros Hs Hb Hbody. induction s as [|c r IH].
  - rewrite append_nil, tz_comment_blank by reflexivity.
    rewrite tz_comment_open, (lstrip_to_close body Hbody).
    destruct body as [|b body']; [congruence|].
    rewrite append_String. cbn [Str.startswith Str.mem] in *.
    apply orb_false_iff in Hbody as [Hb0 _].
    rewrite Ascii.eqb_sym in Hb0. now rewrite Hb0.
  - rewrite append_String. cbn [Str.mem Str.all] in *.
    apply orb_false_iff in Hs as [Hc Hr].
    destruct (Str.isspace c) eqn:Hsp; cbn [andb].
    + rewrite tz_comment_blank by exact Hsp. now apply IH.
    + now apply tz_comment_other.
Qed.

Lemma re_sub_tz_comment (s body : string) :
  Str.mem "(" s = false -> body <> "" -> Str.mem ")" body = false ->
  re_sub_tz (String.append s (String " " (String "(" (String.append body ")"))))
  = Str.rstrip Str.isspace s.
Proof.
  intros Hs Hb Hbody. induction s as [|c r IH].
  - pose proof (tz_comment_before "" body Hs Hb Hbody) as Ht.
    rewrite append_nil in *. cbn [re_sub_tz]. now rewrite Ht.
  - pose proof (tz_comment_before (String c r) body Hs Hb Hbody) as Ht.
    rewrite append_String in *. cbn [re_sub_tz]. rewrite Ht.
    cbn [Str.mem] in Hs. apply orb_false_iff in Hs as [_ Hr].
    cbn [Str.all Str.rstrip]. rewrite (IH Hr), rstrip_empty_iff, negb_involutive.
    reflexivity.
Qed.

Lemma tz_comment_needs_open (t : string) :
  tz_comment t = true -> Str.mem "(" t = true.
Proof.
  induction t as [|c r IH]; [discriminate|].
  cbn [Str.mem]. destruct (Ascii.eqb c "(") eqn:Hc; [reflexivity|].
  destruct (Str.isspace c) eqn:Hsp.
  - rewrite tz_comment_blank by exact Hsp. exact IH.
  - now rewrite tz_comment_other.
Qed.

Lemma re_sub_tz_plain (s : string) :
  Str.mem "(" s = false -> re_sub_tz s = s.
Proof.
  induction s as [|c r IH]; intros Hs.
  - reflexivity.
  - cbn [re_sub_tz].
    destruct (tz_comment (String c r)) eqn:Ht.
    + apply tz_comment_needs_open in Ht. congruence.
    + cbn [Str.mem] in Hs. apply orb_false_iff in Hs as [_ Hr].
      now rewrite (IH Hr).
Qed.

Section Dates.

Variable strptime : string -> string -> option datetime.

(** X23. A trailing comment in parentheses does not change what a date
    parses to: for a non-empty date text without an opening parenthesis,
    followed by a blank and a non-empty comment in parentheses that holds
    no closing one, the parser gives what it gives for the date text
    alone. *)
Theorem trailing_comment_is_ignored (date_str body : string) :
  date_str <> "" -> Str.mem "(" date_str = false ->
  body <> "" -> Str.mem ")" body = false ->
  _parse_date strptime
    (String.append date_str (String " " (String "(" (String.append body ")"))))
  = _parse_date strptime date_str.
Proof.
  intros Hne Hs Hb Hbody. unfold _parse_date.
  rewrite (re_sub_tz_comment date_str body Hs Hb Hbody), (re_sub_tz_plain _ Hs).
  rewrite strip_rstrip.
  destruct date_str as [|c r]; [congruence|].
  rewrite append_String. reflexivity.
Qed.

Lemma try_formats_first_match (fmts : list string) (s : string) (d : datetime) :
  try_formats strptime s fmts = Some d <->
  exists fmt, Wording.first_match strptime fmts s fmt d.
Proof.
  induction fmts as [|f r IH]; cbn [try_formats].
  - split; [discriminate|].
    intros (fmt & before & after & H & _). now destruct before.
  - destruct (strptime s f) as [d0|] eqn:Ef.
    + split.
      * intros [= ->]. exists f, [], r. repeat split; [constructor|exact Ef].
      * intros (fmt & before & after & H & Hb & Hf).
        destruct before as [|b before'].
        -- injection H as <- _. congruence.
        -- injection H as <- _. apply Forall_cons in Hb as [Hb _]. congruence.
    + rewrite IH. split.
      * intros (fmt & before & after & -> & Hb & Hf).
        exists fmt, (f :: before), after. repeat split; [|exact Hf].
        now constructor.
      * intros (fmt & before & after & H & Hb & Hf).
        destruct before as [|b before'].
        -- injection H as <- _. congruence.
        -- injection H as _ ->. apply Forall_cons in Hb as [_ Hb].
           exists fmt, before', after. auto.
Qed.

(** X24. The date parser gives a date exactly for a non-empty text and
    the value of the first of the four patterns, in their order, that
    the library accepts on the text once the trailing comment and the
    outer blanks are removed. *)
Theorem parse_date_first_pattern (date_str : string) (d : datetime) :
  _parse_date strptime date_str = Some d <->
  date_str <> "" /\
  exists fmt,
    Wording.first_match strptime date_formats
      (Str.strip (re_sub_tz date_str)) fmt d.
Proof.
  unfold _parse_date. destruct date_str as [|c r].
  - split; [discriminate|intros [H _]; congruence].
  - cbn [Str.truthy negb]. rewrite try_formats_first_match.
    split; [intros H; split; [discriminate|exact H]|intros [_ H]; exact H].
Qed.

End Dates.

Lemma trailing_comment_is_ignored_witness :
  _parse_date Sample.strptime "Mon, 01 Jan 2024 10:00:00 +0000 (UTC)"
  = _parse_date Sample.strptime "Mon, 01 Jan 2024 10:00:00 +0000".
Proof.
  apply (trailing_comment_is_ignored Sample.strptime
           "Mon, 01 Jan 2024 10:00:00 +0000" "UTC");
    [discriminate|reflexivity|discriminate|reflexivity].
Defined.

(** X25. Removing the trailing comment only shortens the text from its
    end: the result is a beginning of the text, and a text without an
    opening parenthesis is returned as it is. *)
Theorem comment_removal_keeps_a_prefix (s : string) :
  (exists cut, s = String.append (re_sub_tz s) cut) /\
  (Str.mem "(" s = false -> re_sub_tz s = s).
Proof.
  split; [|apply re_sub_tz_plain].
  induction s as [|c r [cut IH]]; cbn [re_sub_tz].
  - destruct (tz_comment ""); now exists "".
  - destruct (tz_comment (String c r)).
    + now exists (String c r).
    + exists cut. rewrite append_String. now rewrite <- IH.
Qed.

End ParseExtra.

(** ** The LinkedIn export and the network report *)

Module LinkedInExtra.
Import LinkedIn Network.

Lemma split_nonempty (c : ascii) (s : string) : split c s <> [].
Proof.
  destruct s as [|x r]; cbn [split]; [discriminate|].
  destruct (Ascii.eqb x c); [discriminate|].
  destruct (split c r); discriminate.
Qed.

Lemma find_header_spec (i : nat) (lines : list string) :
  (Forall (fun l => is_header l = false) lines /\ find_header i lines = O) \/
  (exists k first rest,
      find_header i lines = (i + k)%nat /\
      lines = (take k lines ++ first :: rest)%list /\
      drop k lines = first :: rest /\
      is_header first = true /\
      Forall (fun l => is_header l = false) (take k lines)).
Proof.
  revert i. induction lines as [|line r IH]; intros i.
  - left. split; [constructor|reflexivity].
  - cbn [find_header]. destruct (is_header line) eqn:E.
    + right. exists O, line, r. cbn [take drop app].
      repeat split; [lia|exact E|constructor].
    + destruct (IH (S i)) as [[Hall H0]|(k & first & rest & Hk & Hl & Hd & Hf & Ht)].
      * left. split; [now constructor|exact H0].
      * right. exists (S k), first, rest. cbn [take drop app].
        repeat split; [lia|now rewrite <- Hl|exact Hd|exact Hf|now constructor].
Qed.

(** X26. The lines handed to the CSV reader are never none. When some
    line of the trimmed file holds the text First Name or the text
    Email, they start at the first such line and every line before it is
    skipped; when no line does, they are all the lines of the file. *)
Theorem table_starts_at_first_header (content : string) :
  let lines := split newline (Str.strip content) in
  exists skipped first rest,
    lines = (skipped ++ first :: rest)%list /\
    table_lines content = first :: rest /\
    Forall (fun l => is_header l = false) skipped /\
    (is_header first = true \/
     (skipped = [] /\ Forall (fun l => is_header l = false) lines)).
Proof.
  cbv zeta. unfold table_lines, header_idx.
  pose proof (split_nonempty newline (Str.strip content)) as Hne.
  destruct (find_header_spec O (split newline (Str.strip content)))
    as [[Hall H0]|(k & first & rest & Hk & Hl & Hd & Hf & Ht)].
  - rewrite H0. destruct (split newline (Str.strip content)) as [|first rest];
      [congruence|].
    exists [], first, rest. cbn [drop app].
    repeat split; [constructor|]. right. split; [reflexivity|exact Hall].
  - rewrite Hk. cbn [Nat.add].
    exists (take k (split newline (Str.strip content))), first, rest.
    repeat split; [exact Hl|exact Hd|exact Ht|]. now left.
Qed.

(** *** The domain label *)

Lemma mem_remove_same (c : ascii) (s : string) : Str.mem c (Str.remove c s) = false.
Proof.
  induction s as [|x r IH]; [reflexivity|]. cbn [Str.remove].
  destruct (Ascii.eqb x c) eqn:E; [exact IH|].
  cbn [Str.mem]. now rewrite E, IH.
Qed.

Lemma mem_remove_other (c c' : ascii) (s : string) :
  Str.mem c s = false -> Str.mem c (Str.remove c' s) = false.
Proof.
  induction s as [|x r IH]; [reflexivity|]. cbn [Str.remove Str.mem].
  intros H. apply orb_false_iff in H as [Hx Hr].
  destruct (Ascii.eqb x c'); [now apply IH|].
  cbn [Str.mem]. now rewrite Hx, IH.
Qed.

Lemma mem_take (c : ascii) (n : nat) (s : string) :
  Str.mem c s = false -> Str.mem c (Str.take n s) = false.
Proof.
  revert s. induction n as [|n IH]; intros [|x r]; try reflexivity.
  cbn [Str.take Str.mem]. intros H. apply orb_false_iff in H as [Hx Hr].
  now rewrite Hx, IH.
Qed.

Lemma lower_remove (c : ascii) (s : string) :
  Str.lower s = s -> Str.lower (Str.remove c s) = Str.remove c s.
Proof.
  induction s as [|x r IH]; [reflexivity|]. cbn [Str.lower Str.remove].
  intros H. injection H as Hx Hr.
  destruct (Ascii.eqb x c); [now apply IH|].
  cbn [Str.lower]. now rewrite Hx, IH.
Qed.

Lemma lower_take (n : nat) (s : string) :
  Str.lower s = s -> Str.lower (Str.take n s) = Str.take n s.
Proof.
  revert s. induction n as [|n IH]; intros [|x r]; try reflexivity.
  cbn [Str.lower Str.take]. intros H. injection H as Hx Hr.
  now rewrite Hx, IH.
Qed.

Lemma remove_absent (c : ascii) (s : string) :
  Str.mem c s = false -> Str.remove c s = s.
Proof.
  induction s as [|x r IH]; [reflexivity|]. cbn [Str.remove Str.mem].
  intros H. apply orb_false_iff in H as [Hx Hr]. now rewrite Hx, IH.
Qed.

Lemma take_all (n : nat) (s : string) :
  (String.length s <= n)%nat -> Str.take n s = s.
Proof.
  revert s. induction n as [|n IH]; intros [|x r]; cbn [String.length Str.take];
    try reflexivity; try lia.
  intros H. rewrite IH; [reflexivity|lia].
Qed.

(** X27. The domain label of any company name is in normal form: it has
    no space and no comma, it is in lower case, it has at most twenty
    characters, and taking the label of a label changes nothing. *)
Theorem domain_label_normal_form (company : string) :
  let label := domain_of company in
  Str.mem " " label = false /\ Str.mem "," label = false /\
  Str.lower label = label /\ (String.length label <= 20)%nat /\
  domain_of label = label.
Proof.
  cbv zeta.
  assert (Str.mem " " (domain_of company) = false) as Hsp.
  { unfold domain_of. destruct (Str.truthy company); [|reflexivity].
    apply mem_take, mem_remove_other, mem_remove_same. }
  assert (Str.mem "," (domain_of company) = false) as Hco.
  { unfold domain_of. destruct (Str.truthy company); [|reflexivity].
    apply mem_take, mem_remove_same. }
  assert (Str.lower (domain_of company) = domain_of company) as Hlo.
  { unfold domain_of. destruct (Str.truthy company); [|reflexivity].
    apply lower_take, lower_remove, lower_remove, StrFacts.lower_idem. }
  assert (String.length (domain_of company) <= 20)%nat as Hlen.
  { unfold domain_of. destruct (Str.truthy company); [|simpl; lia].
    apply StrFacts.take_length. }
  repeat split; try assumption.
  generalize dependent (domain_of company). intros label Hsp Hco Hlo Hlen.
  unfold domain_of. destruct label as [|x r]; [reflexivity|].
  cbn [Str.truthy]. rewrite Hlo, (remove_absent " " _ Hsp),
    (remove_absent "," _ Hco). now apply take_all.
Qed.

(** *** The full name *)

Lemma app_nil (s : string) : String.append "" s = s.
Proof. reflexivity. Qed.

Lemma app_String (x : ascii) (r s : string) :
  String.append (String x r) s = String x (String.append r s).
Proof. reflexivity. Qed.

Lemma truthy_app_r (a b : string) :
  Str.truthy b = true -> Str.truthy (String.append a b) = true.
Proof. intros H. destruct a; [exact H|reflexivity]. Qed.

Lemma rstrip_app_keep (p : ascii -> bool) (a b : string) :
  Str.truthy (Str.rstrip p b) = true ->
  Str.rstrip p (String.append a b) = String.append a (Str.rstrip p b).
Proof.
  intros Hb. induction a as [|c a' IH]; [reflexivity|].
  rewrite !app_String. cbn [Str.rstrip]. rewrite IH.
  rewrite (truthy_app_r a' _ Hb). cbn [negb]. now rewrite andb_false_r.
Qed.

Lemma rstrip_blank (p : ascii -> bool) (b : string) :
  Str.all p b = true -> Str.rstrip p b = "".
Proof.
  induction b as [|c r IH]; [reflexivity|]. cbn [Str.all Str.rstrip].
  intros H. apply andb_true_iff in H as [Hc Hr]. now rewrite (IH Hr), Hc.
Qed.

Lemma rstrip_app_blank (p : ascii -> bool) (a b : string) :
  Str.all p b = true -> Str.rstrip p (String.append a b) = Str.rstrip p a.
Proof.
  intros Hb. induction a as [|c a' IH].
  - rewrite app_nil. now apply rstrip_blank.
  - rewrite app_String. cbn [Str.rstrip]. now rewrite IH.
Qed.

(** A text that stripping leaves alone, when not empty, starts with a
    character that is no blank. *)
Lemma stripped_head (s : string) :
  Str.lstrip Str.isspace s = s ->
  match s with
  | EmptyString => True
  | String c _ => Str.isspace c = false
  end.
Proof.
  intros H. pose proof (StrFacts.lstrip_head Str.isspace s) as Hh.
  now rewrite H in Hh.
Qed.

Lemma strip_is_stripped (y : string) :
  Str.lstrip Str.isspace (Str.strip y) = Str.strip y /\
  Str.rstrip Str.isspace (Str.strip y) = Str.strip y.
Proof.
  unfold Str.strip, Str.strip_by. split.
  - apply StrFacts.lstrip_rstrip_lstrip.
  - apply StrFacts.rstrip_idem.
Qed.

Lemma strip_joined (fn ln : string) :
  Str.lstrip Str.isspace fn = fn -> Str.rstrip Str.isspace fn = fn ->
  Str.lstrip Str.isspace ln = ln -> Str.rstrip Str.isspace ln = ln ->
  Str.strip (String.append fn (String.append " " ln)) =
  if Str.truthy ln
  then if Str.truthy fn then String.append fn (String.append " " ln) else ln
  else fn.
Proof.
  intros Hfl Hfr Hll Hlr.
  change (String.append " " ln) with (String " " ln).
  unfold Str.strip, Str.strip_by.
  pose proof (stripped_head fn Hfl) as Hfh.
  destruct ln as [|l lr]; cbn [Str.truthy].
  - destruct fn as [|f fr]; [reflexivity|].
    rewrite app_String. cbn [Str.lstrip]. rewrite Hfh.
    rewrite <- app_String, rstrip_app_blank by reflexivity. exact Hfr.
  - destruct fn as [|f fr]; cbn [Str.truthy].
    + rewrite app_nil.
      change (Str.lstrip Str.isspace (String " " (String l lr)))
        with (Str.lstrip Str.isspace (String l lr)).
      now rewrite Hll.
    + rewrite app_String. cbn [Str.lstrip]. rewrite Hfh.
      rewrite <- app_String.
      assert (Str.rstrip Str.isspace (String " " (String l lr))
              = String " " (String l lr)) as Hb.
      { change (Str.rstrip Str.isspace (String " " (String l lr)))
          with (if Str.isspace " "
                   && negb (Str.truthy (Str.rstrip Str.isspace (String l lr)))
                then "" else String " " (Str.rstrip Str.isspace (String l lr))).
        now rewrite Hlr. }
      rewrite rstrip_app_keep; rewrite Hb; reflexivity.
Qed.

Section Names.

Variable strptime : string -> string -> option datetime.
Variable isoformat : datetime -> string.

(** X28. Every contact the parser returns has a name: at least one of
    its first and last name is not empty, and its full name is the first
    name alone when there is no last name, the last name alone when
    there is no first name, and otherwise the two with one blank between
    them; the full name is never empty and has no blank at its ends. *)
Theorem full_name_composition (r : row) (c : contact) :
  process_row strptime isoformat r = Appended c ->
  (first_name c <> "" \/ last_name c <> "") /\
  name c =
    (if Str.truthy (last_name c)
     then if Str.truthy (first_name c)
          then String.append (first_name c) (String.append " " (last_name c))
          else last_name c
     else first_name c) /\
  name c <> "" /\ Str.strip (name c) = name c.
Proof.
  intros Hrow.
  apply LinkedInFacts.process_row_appended in Hrow
    as (fn & ln & em & co & po & cn & url & Hfn & Hln & _ & _ & Hb).
  apply LinkedInFacts.strip_inv in Hfn as (rawf & _ & ->).
  apply LinkedInFacts.strip_inv in Hln as (rawl & _ & ->).
  destruct (strip_is_stripped rawf) as [Hfl Hfr].
  destruct (strip_is_stripped rawl) as [Hll Hlr].
  pose proof (strip_joined _ _ Hfl Hfr Hll Hlr) as Hname.
  unfold build in Hb.
  destruct (Str.truthy (Str.strip rawf)) eqn:Ef;
    destruct (Str.truthy (Str.strip rawl)) eqn:El;
    cbn [negb andb] in Hb; try discriminate;
    injection Hb as <-; cbn [name first_name last_name];
    rewrite ?Ef, ?El; rewrite Hname.
  - repeat split.
    + left. intros H. rewrite H in Ef. discriminate.
    + destruct (Str.strip rawf); [discriminate|]. rewrite app_String. discriminate.
    + exact Hname.
  - repeat split.
    + left. intros H. rewrite H in Ef. discriminate.
    + intros H. rewrite H in Ef. discriminate.
    + apply StrFacts.strip_by_idem.
  - repeat split.
    + right. intros H. rewrite H in El. discriminate.
    + intros H. rewrite H in El. discriminate.
    + apply StrFacts.strip_by_idem.
Qed.

End Names.

Lemma full_name_composition_witness :
  exists c,
    process_row Sample.strptime Sample.isoformat Sample.acme_row = Appended c /\
    name c = "Jane" /\ name c <> "".
Proof.
  destruct (process_row Sample.strptime Sample.isoformat Sample.acme_row)
    as [| |c] eqn:E; [discriminate E|discriminate E|].
  exists c. split; [reflexivity|].
  destruct (full_name_composition Sample.strptime Sample.isoformat
              Sample.acme_row c E) as (_ & Hname & Hne & _).
  split; [|exact Hne].
  rewrite Hname. injection E as <-. reflexivity.
Defined.

End LinkedInExtra.

(** ** The network report *)

Module NetworkExtra.
Import LinkedIn Network.

Ltac eqb_cases :=
  repeat match goal with
    | |- context [String.eqb ?a ?b] => destruct (String.eqb_spec a b)
    end;
  subst; try congruence; try lia.

Lemma count_of_bump (k k' : string) (m : counter) :
  count_of k' (bump k m) = count_of k' m + (if String.eqb k k' then 1 else 0).
Proof.
  induction m as [|[k0 n] r IH]; cbn [bump count_of].
  - eqb_cases.
  - destruct (String.eqb_spec k k0) as [->|Hne]; cbn [count_of].
    + eqb_cases.
    + rewrite IH. eqb_cases.
Qed.

Lemma bump_keys (k k' : string) (m : counter) :
  In k' (map fst (bump k m)) -> k' = k \/ In k' (map fst m).
Proof.
  induction m as [|[k0 n] r IH]; cbn [bump map fst In].
  - intros [H|[]]. now left.
  - destruct (String.eqb k k0); cbn [map fst In]; [tauto|].
    intros [H|H]; [tauto|]. destruct (IH H); tauto.
Qed.

Lemma bump_NoDup (k : string) (m : counter) :
  NoDup (map fst m) -> NoDup (map fst (bump k m)).
Proof.
  induction m as [|[k0 n] r IH]; cbn [bump map fst]; intros Hm.
  - repeat constructor. intros H. inversion H.
  - destruct (String.eqb_spec k k0) as [->|Hne]; [exact Hm|].
    cbn [map fst]. apply NoDup_cons in Hm as [Hk0 Hr].
    apply NoDup_cons. split; [|now apply IH].
    intros Hin. apply list_elem_of_In, bump_keys in Hin as [H|H];
      [congruence|]. apply Hk0. now apply list_elem_of_In.
Qed.

Lemma bump_Forall (Q : string * Z -> Prop) (k : string) (m : counter) :
  Q (k, 1) -> (forall n, Q (k, n) -> Q (k, n + 1)) ->
  Forall Q m -> Forall Q (bump k m).
Proof.
  intros H1 Hs. induction 1 as [|[k0 n] r Hx Hr IH]; cbn [bump].
  - now repeat constructor.
  - destruct (String.eqb_spec k k0) as [<-|Hne]; constructor; auto.
Qed.

Lemma count_of_In (k : string) (n : Z) (m : counter) :
  NoDup (map fst m) -> In (k, n) m -> count_of k m = n.
Proof.
  induction m as [|[k0 n0] r IH]; cbn [map fst count_of In]; [tauto|].
  intros Hm. apply NoDup_cons in Hm as [Hk0 Hr].
  intros [[= -> ->]|Hin]; [now rewrite String.eqb_refl|].
  destruct (String.eqb_spec k k0) as [->|_]; [|now apply IH].
  exfalso. apply Hk0. apply list_elem_of_In, in_map_iff. now exists (k0, n).
Qed.

Lemma employees_cons (k : string) (c : contact) (cs : list contact) :
  Measure.employees k (c :: cs) =
  (if String.eqb (company c) k then 1 else 0) + Measure.employees k cs.
Proof.
  unfold Measure.employees. cbn [List.filter].
  destruct (String.eqb _ _); cbn [length]; lia.
Qed.

Lemma tally_companies (cs : list contact) (m y : counter) :
  NoDup (map fst m) -> Forall Measure.named m ->
  let m' := fst (tally cs m y) in
  NoDup (map fst m') /\ Forall Measure.named m' /\
  forall k, Str.truthy k = true ->
            count_of k m' = count_of k m + Measure.employees k cs.
Proof.
  revert m y. induction cs as [|c cs IH]; intros m y Hnd Hok; cbn [tally].
  - cbn [fst]. repeat split; try assumption.
    intros k _. unfold Measure.employees. simpl. lia.
  - destruct (Str.truthy (company c)) eqn:Eco.
    + destruct (IH (bump (company c) m)
                   (if Str.truthy (connected_on c)
                    then bump (Str.take 4 (connected_on c)) y else y)
                   (bump_NoDup _ _ Hnd)) as (H1 & H2 & H3).
      { apply bump_Forall; [split; [exact Eco|cbn [snd]; lia]| |exact Hok].
        intros n [Ht Hn]. split; [exact Ht|cbn [snd] in *; lia]. }
      repeat split; [exact H1|exact H2|].
      intros k Hk. rewrite (H3 k Hk), count_of_bump, employees_cons. lia.
    + destruct (IH m (if Str.truthy (connected_on c)
                      then bump (Str.take 4 (connected_on c)) y else y)
                   Hnd Hok) as (H1 & H2 & H3).
      repeat split; [exact H1|exact H2|].
      intros k Hk. rewrite (H3 k Hk), employees_cons.
      destruct (String.eqb_spec (company c) k) as [He|_]; [|lia].
      rewrite He in Eco. congruence.
Qed.

Lemma insert_by_count_perm (x : string * Z) (l : counter) :
  Permutation (insert_by_count x l) (x :: l).
Proof.
  induction l as [|y r IH]; cbn [insert_by_count]; [reflexivity|].
  destruct (_ <? _); [|reflexivity]. rewrite IH. apply perm_swap.
Qed.

Lemma sorted_by_count_perm (l : counter) : Permutation (sorted_by_count l) l.
Proof.
  induction l as [|x r IH]; cbn [sorted_by_count]; [reflexivity|].
  rewrite insert_by_count_perm. now constructor.
Qed.

Lemma insert_by_count_sorted (x : string * Z) (l : counter) :
  StronglySorted Measure.by_count l -> StronglySorted Measure.by_count (insert_by_count x l).
Proof.
  induction 1 as [|y r Hr IH Hy]; cbn [insert_by_count].
  - repeat constructor.
  - destruct (snd x <? snd y) eqn:E.
    + apply Z.ltb_lt in E. constructor; [exact IH|].
      rewrite Forall_forall in *. intros z Hz.
      apply list_elem_of_In in Hz.
      apply (Permutation_in _ (insert_by_count_perm x r)) in Hz as [<-|Hz].
      * unfold Measure.by_count. lia.
      * apply Hy. now apply list_elem_of_In.
    + apply Z.ltb_ge in E. constructor; [now constructor|].
      constructor; [exact E|].
      rewrite Forall_forall in *. intros z Hz.
      specialize (Hy z Hz). unfold Measure.by_count in *. lia.
Qed.

Lemma sorted_by_count_sorted (l : counter) :
  StronglySorted Measure.by_count (sorted_by_count l).
Proof.
  induction l as [|x r IH]; cbn [sorted_by_count]; [constructor|].
  now apply insert_by_count_sorted.
Qed.

Lemma StronglySorted_take {A : Type} (R : A -> A -> Prop) (n : nat) (l : list A) :
  StronglySorted R l -> StronglySorted R (take n l).
Proof.
  intros H. revert n. induction H as [|x r Hr IH Hx]; intros [|n];
    cbn [take]; try constructor; [apply IH|now apply Forall_take].
Qed.

Lemma filter_le {A : Type} (f : A -> bool) (l : list A) :
  (length (List.filter f l) <= length l)%nat.
Proof.
  induction l as [|x r IH]; cbn [List.filter length]; [lia|].
  destruct (f x); cbn [length]; lia.
Qed.

(** X29. In the report, the total is the number of contacts, the
    number with an email lies between zero and the total, and the top
    companies are at most ten, largest count first; each of them has a
    non-empty name and is listed with exactly the number of contacts
    that have that company, which is at least one. *)
Theorem top_companies_are_exact (contacts : list contact) :
  let st := analyze_network contacts in
  total_connections st = Z.of_nat (length contacts) /\
  0 <= with_email st <= total_connections st /\
  (length (top_companies st) <= 10)%nat /\
  StronglySorted (fun a b => snd b <= snd a) (top_companies st) /\
  Forall (fun p => fst p <> "" /\ 1 <= snd p /\
                   snd p = Measure.employees (fst p) contacts)
         (top_companies st).
Proof.
  cbv zeta. unfold analyze_network.
  destruct (tally_companies contacts [] [] (NoDup_nil_2 (A:=string)) (Forall_nil_2 _))
    as (Hnd & Hok & Hcount).
  destruct (tally contacts [] []) as [companies years] eqn:Et.
  cbn [fst total_connections with_email top_companies] in *.
  split; [reflexivity|]. split.
  { pose proof (filter_le (fun c => Str.truthy (email c)) contacts). lia. }
  split; [rewrite length_take; lia|].
  split; [apply StronglySorted_take, sorted_by_count_sorted|].
  apply Forall_take.
  rewrite (sorted_by_count_perm companies).
  rewrite Forall_forall in *. intros [k n] Hin.
  destruct (Hok _ Hin) as [Hk Hn]. cbn [fst snd] in *.
  split; [intros ->; discriminate|]. split; [exact Hn|].
  apply list_elem_of_In in Hin.
  rewrite <- (count_of_In k n companies Hnd Hin), (Hcount k Hk).
  reflexivity.
Qed.

(** *** The years *)











End NetworkExtra.
